(** * Mordecai API: the tenant-scoped authorization core

    A shallow embedding of the membership model (OrganizationUser), the
    organization model (Organization) and the tenant middleware, followed by
    the properties of the specification that were checked against them.

    Conventions of the embedding.
    - A JavaScript object used as a dictionary is a [gmap string _]: the map
      holds the object's own enumerable properties.  Reading a property goes
      through [js_get], which falls back to [Object.prototype] the way a
      property read on an object literal does.
    - The built-in objects are as the language defines them: no code has
      written to [Object.prototype] or to a built-in function.  A write of
      the modelled code that lands on a built-in ends the modelled run
      ([None]).
    - [null] and [undefined] are [None] where the code only tests truthiness.
    - Asynchronous store queries are functions of an explicit table (a list
      of rows); a loop around such a query takes a fuel argument that bounds
      the number of iterations, and [None] means the fuel ran out. *)

From stdpp Require Import base option list strings gmap fin_maps.
From Stdlib Require Import ZArith Lia Ascii DecimalString DecimalNat.

#[local] Set Warnings "-clear-no-such-hyp".
Local Open Scope string_scope.
Local Open Scope nat_scope.

(** ** JavaScript values that occur in a permission map *)

Module Js.

(** What one cell of a JSONB permission map may hold. *)
Inductive cell : Type :=
| CNull
| CBool (b : bool)
| CNum (n : Z)
| CStr (s : string).

#[global] Instance cell_eq_dec : EqDecision cell.
Proof. solve_decision. Defined.

(** [c === true], where [None] is [undefined]. *)
Definition strict_eq_true (c : option cell) : bool :=
  match c with
  | Some (CBool true) => true
  | _ => false
  end.

(** The own properties of [Object.prototype]; every object literal and
    every parsed JSON object inherits them. *)
Definition Object_prototype_keys : list string :=
  [ "constructor"; "__defineGetter__"; "__defineSetter__"; "hasOwnProperty";
    "__lookupGetter__"; "__lookupSetter__"; "isPrototypeOf";
    "propertyIsEnumerable"; "toString"; "valueOf"; "__proto__";
    "toLocaleString" ].

(** The outcome of the property read [o[k]] on a plain object. *)
Inductive prop (A : Type) : Type :=
| Own (v : A)               (* an own property *)
| Inherited (name : string) (* a built-in found on Object.prototype *)
| Undefined.
Arguments Own {A} v.
Arguments Inherited {A} name.
Arguments Undefined {A}.

Definition js_get {A} (o : gmap string A) (k : string) : prop A :=
  match o !! k with
  | Some v => Own v
  | None => if bool_decide (k ∈ Object_prototype_keys) then Inherited k else Undefined
  end.

(** The assignment [o[k] = v] on a plain object.  [__proto__] is an
    accessor inherited from [Object.prototype]: unless the object has an own
    property of that name, the assignment runs the setter, which ignores a
    value that is not an object, and no property is created. *)
Definition js_set {A} (o : gmap string A) (k : string) (v : A) : gmap string A :=
  if String.eqb k "__proto__" && bool_decide (o !! k = None) then o
  else <[k := v]> o.

(** What a method that answers with a boolean does: it returns, or it
    throws. *)
Inductive answer : Type :=
| Returns (b : bool)
| Throws (name message : string).
Coercion Returns : bool >-> answer.

#[global] Instance answer_eq_dec : EqDecision answer.
Proof. solve_decision. Defined.

(** On a built-in function the reads of [caller] and [arguments] run the
    accessors of [Function.prototype], which throw. *)
Definition restricted_properties : list string := [ "caller"; "arguments" ].

Definition poison_pill : answer :=
  Throws "TypeError"
    "'caller', 'callee', and 'arguments' properties may not be accessed on strict mode functions or the arguments objects for calls to them".

(** The methods that every function inherits from [Function.prototype]. *)
Definition Function_prototype_methods : list string :=
  [ "apply"; "bind"; "call"; "toString"; "constructor" ].

(** The static methods of the [Object] constructor (ECMAScript 2022). *)
Definition Object_static_methods : list string :=
  [ "assign"; "create"; "defineProperties"; "defineProperty"; "entries";
    "freeze"; "fromEntries"; "getOwnPropertyDescriptor";
    "getOwnPropertyDescriptors"; "getOwnPropertyNames";
    "getOwnPropertySymbols"; "getPrototypeOf"; "hasOwn"; "is";
    "isExtensible"; "isFrozen"; "isSealed"; "keys"; "preventExtensions";
    "seal"; "setPrototypeOf"; "values" ].

(** What the read [b[k]] gives when [b] is the built-in found under the
    inherited name [name]: it throws, it gives a function, or it gives
    something else ([undefined], [null], a number, a string or the object
    [Object.prototype]), none of whose properties is [true] and none of
    whose reads throws.  Under [__proto__] the built-in is
    [Object.prototype]; under every other inherited name it is a function
    ([Object] under [constructor]).  The built-ins are read as the language
    defines them: a run of the modelled code in which a write lands on one
    of them ends there (see [set_true]), so no later read sees it. *)
Inductive builtin_read : Type := ReadThrows | ReadFunction | ReadOther.

Definition builtin_get (name k : string) : builtin_read :=
  if String.eqb name "__proto__" then
    if bool_decide (k ∈ Object_prototype_keys) && negb (String.eqb k "__proto__")
    then ReadFunction else ReadOther
  else if bool_decide (k ∈ restricted_properties) then ReadThrows
  else if bool_decide (k ∈ Function_prototype_methods)
          || bool_decide (k ∈ Object_prototype_keys)
          || (String.eqb name "constructor" && bool_decide (k ∈ Object_static_methods))
  then ReadFunction
  else ReadOther.

(** [f[action] === true] for a built-in function [f]. *)
Definition function_allows (action : string) : answer :=
  if bool_decide (action ∈ restricted_properties) then poison_pill else Returns false.

(** [b[action] === true] for the built-in [b] found under the inherited
    name [name]. *)
Definition builtin_allows (name action : string) : answer :=
  match builtin_get name action with
  | ReadThrows => poison_pill
  | _ => Returns false
  end.

(** [b[resource]], the guard [if (!resourcePerms) return false], and
    [resourcePerms[action] === true], for the built-in [b] found under the
    inherited name [name]. *)
Definition builtin_permission (name resource action : string) : answer :=
  match builtin_get name resource with
  | ReadThrows => poison_pill
  | ReadFunction => function_allows action
  | ReadOther => Returns false
  end.

(** Truthiness of a string: only the empty string is falsy. *)
Definition truthy_str (s : string) : bool := negb (String.eqb s "").

(** Truthiness of a possibly absent string ([null], [undefined], or a string). *)
Definition truthy (s : option string) : bool :=
  match s with
  | Some s => truthy_str s
  | None => false
  end.

End Js.
Import Js.

(** ** The membership model (OrganizationUser) *)

(** The action map of one resource, and a whole permission map. *)
Abbreviation actions := (gmap string cell).
Abbreviation permission_map := (gmap string (gmap string cell)).

(** An object-valued JavaScript value: a permission map, or one of the
    built-ins that a property read can reach through the prototype chain,
    named by the inherited property under which it is found (the [Object]
    constructor under [constructor], [Object.prototype] under [__proto__],
    ...).  A built-in has no own enumerable property. *)
Inductive value : Type :=
| VObj (o : permission_map)
| VBuiltin (name : string).

#[global] Instance value_eq_dec : EqDecision value.
Proof. solve_decision. Defined.

(** [Object.keys(v)] yields the keys of [own_props v]; [{ ...v }] is a fresh
    object with exactly these properties. *)
Definition own_props (v : value) : permission_map :=
  match v with
  | VObj o => o
  | VBuiltin _ => ∅
  end.

Definition T : cell := CBool true.
Definition F : cell := CBool false.

Definition users_perms (read write delete invite : cell) : actions :=
  {[ "read" := read; "write" := write; "delete" := delete; "invite" := invite ]}.
Definition organizations_perms (read write delete settings : cell) : actions :=
  {[ "read" := read; "write" := write; "delete" := delete; "settings" := settings ]}.
Definition reports_perms (read write export : cell) : actions :=
  {[ "read" := read; "write" := write; "export" := export ]}.
Definition billing_perms (read write : cell) : actions :=
  {[ "read" := read; "write" := write ]}.
Definition api_perms (read write : cell) : actions :=
  {[ "read" := read; "write" := write ]}.

Definition table (users organizations reports billing api : actions) : permission_map :=
  {[ "users" := users; "organizations" := organizations; "reports" := reports;
     "billing" := billing; "api" := api ]}.

(** The [defaultValue] of the [permissions] column: every cell [false]. *)
Definition permissions_defaultValue : permission_map :=
  table (users_perms F F F F) (organizations_perms F F F F)
        (reports_perms F F F) (billing_perms F F) (api_perms F F).

(** The [defaultValue] of the [role] column. *)
Definition role_defaultValue : string := "employee".

Definition owner_table : permission_map :=
  table (users_perms T T T T) (organizations_perms T T T T)
        (reports_perms T T T) (billing_perms T T) (api_perms T T).
Definition admin_table : permission_map :=
  table (users_perms T T T T) (organizations_perms T T F T)
        (reports_perms T T T) (billing_perms T F) (api_perms T T).
Definition manager_table : permission_map :=
  table (users_perms T T F T) (organizations_perms T F F F)
        (reports_perms T T T) (billing_perms F F) (api_perms T F).
Definition employee_table : permission_map :=
  table (users_perms T F F F) (organizations_perms T F F F)
        (reports_perms T F F) (billing_perms F F) (api_perms F F).
Definition viewer_table : permission_map :=
  table (users_perms T F F F) (organizations_perms T F F F)
        (reports_perms T F F) (billing_perms F F) (api_perms F F).
Definition guest_table : permission_map :=
  table (users_perms F F F F) (organizations_perms T F F F)
        (reports_perms F F F) (billing_perms F F) (api_perms F F).

(** The object literal [rolePermissions] of [getRolePermissions]. *)
Definition rolePermissions : gmap string permission_map :=
  {[ "owner" := owner_table; "admin" := admin_table; "manager" := manager_table;
     "employee" := employee_table; "viewer" := viewer_table; "guest" := guest_table ]}.

(** [OrganizationUser.getRolePermissions]:
    [return rolePermissions[role] || rolePermissions.guest].
    The argument is the property key that [role] converts to.  Objects and
    built-in functions are truthy, so the fallback is taken only when the
    read yields [undefined]. *)
Definition getRolePermissions (role : string) : value :=
  match js_get rolePermissions role with
  | Own t => VObj t
  | Inherited name => VBuiltin name
  | Undefined => VObj guest_table
  end.

(** A thrown [Error]. *)
Inductive exn : Type :=
| Error (message : string).

Module OrganizationUser.

(** One row of [organization_users]; [deletedAt] is the soft-delete marker
    of the paranoid table.  [permissions] is [None] for [null]/[undefined]. *)
Record t : Type := mk {
  id : string;
  userId : string;
  organizationId : string;
  role : string;
  permissions : option value;
  isActive : bool;
  deletedAt : option Z;
}.

Definition set_role (orgUser : t) (r : string) : t :=
  mk orgUser.(id) orgUser.(userId) orgUser.(organizationId) r
     orgUser.(permissions) orgUser.(isActive) orgUser.(deletedAt).

Definition set_permissions (orgUser : t) (p : option value) : t :=
  mk orgUser.(id) orgUser.(userId) orgUser.(organizationId) orgUser.(role)
     p orgUser.(isActive) orgUser.(deletedAt).

Definition set_deletedAt (orgUser : t) (d : option Z) : t :=
  mk orgUser.(id) orgUser.(userId) orgUser.(organizationId) orgUser.(role)
     orgUser.(permissions) orgUser.(isActive) d.

(** [resourcePerms[action] === true] after the guard [if (!resourcePerms)].
    An inherited built-in is truthy; the read of [action] on it is that of
    [builtin_allows]. *)
Definition resource_allows (resourcePerms : prop actions) (action : string) : answer :=
  match resourcePerms with
  | Undefined => Returns false
  | Inherited name => builtin_allows name action
  | Own acts =>
      Returns match js_get acts action with
              | Own c => strict_eq_true (Some c)
              | Inherited _ => false
              | Undefined => false
              end
  end.

(** [OrganizationUser.prototype.hasPermission]. *)
Definition hasPermission (this : t) (resource action : string) : answer :=
  match default (VObj ∅) this.(permissions) with
  | VObj permissions => resource_allows (js_get permissions resource) action
  | VBuiltin name => builtin_permission name resource action
  end.

(** The assignment [permissions[resource][action] = true] on a map whose
    nested objects are its own.  [None]: the object reached through
    [permissions[resource]] is a built-in shared by the whole process (or
    the read gave [undefined]); the write leaves the map. *)
Definition set_true (permissions : permission_map) (resource action : string)
  : option permission_map :=
  match js_get permissions resource with
  | Own acts => Some (<[resource := js_set acts action T]> permissions)
  | Inherited _ => None
  | Undefined => None
  end.

(** [OrganizationUser.prototype.grantPermission]; the [update] it ends with
    leaves the role alone, so [beforeUpdate] does nothing there. *)
Definition grantPermission (this : t) (resource action : string) : option t :=
  let permissions := own_props (default (VObj ∅) this.(permissions)) in
  let permissions :=
    match js_get permissions resource with
    | Undefined => <[resource := ∅]> permissions
    | _ => permissions
    end in
  permissions ← set_true permissions resource action;
  Some (set_permissions this (Some (VObj permissions))).

(** *** Hooks *)

(** [beforeCreate]. *)
Definition beforeCreate (orgUser : t) : t :=
  match orgUser.(permissions) with
  | None => set_permissions orgUser (Some (getRolePermissions orgUser.(role)))
  | Some p =>
      if bool_decide (own_props p = ∅)
      then set_permissions orgUser (Some (getRolePermissions orgUser.(role)))
      else orgUser
  end.

(** The inner [forEach] of [beforeUpdate] for one action of one resource. *)
Definition merge_action (resource action : string) (c : cell)
    (mergedPermissions : option permission_map) : option permission_map :=
  if strict_eq_true (Some c)
  then merged ← mergedPermissions; set_true merged resource action
  else mergedPermissions.

(** The outer [forEach] of [beforeUpdate] for one resource. *)
Definition merge_resource (resource : string) (acts : actions)
    (mergedPermissions : option permission_map) : option permission_map :=
  match mergedPermissions with
  | None => None
  | Some merged =>
      match js_get merged resource with
      | Undefined => Some merged
      | _ => map_fold (merge_action resource) (Some merged) acts
      end
  end.

(** The merge of [beforeUpdate]: the defaults of the new role, widened by
    every cell of the current map that is [true]. *)
Definition mergePermissions (rolePermissions currentPermissions : value)
  : option permission_map :=
  map_fold merge_resource (Some (own_props rolePermissions))
           (own_props currentPermissions).

(** [beforeUpdate]; [previous] holds the values before the pending change,
    so [orgUser.changed('role')] compares the two roles.  [None]: the hook
    wrote to a shared built-in (see [set_true]). *)
Definition beforeUpdate (previous orgUser : t) : option t :=
  if bool_decide (orgUser.(role) ≠ previous.(role)) then
    let rolePermissions := getRolePermissions orgUser.(role) in
    let currentPermissions := default (VObj ∅) orgUser.(permissions) in
    mergedPermissions ← mergePermissions rolePermissions currentPermissions;
    Some (set_permissions orgUser (Some (VObj mergedPermissions)))
  else Some orgUser.

(** [orgUser.update({ role })]: assign, run the hook, keep the result. *)
Definition updateRole (orgUser : t) (newRole : string) : option t :=
  beforeUpdate orgUser (set_role orgUser newRole).

(** The attributes handed to [OrganizationUser.create].  An attribute left
    out is [None]; [permissions: null] is [Some None]. *)
Record attributes : Type := mkAttributes {
  a_id : string;
  a_userId : string;
  a_organizationId : string;
  a_role : option string;
  a_permissions : option (option value);
  a_isActive : option bool;
}.

(** Building the instance: the ORM fills every attribute that is
    [undefined] with the [defaultValue] of its column, before any hook
    runs. *)
Definition build (values : attributes) : t :=
  mk values.(a_id) values.(a_userId) values.(a_organizationId)
     (default role_defaultValue values.(a_role))
     (default (Some (VObj permissions_defaultValue)) values.(a_permissions))
     (default true values.(a_isActive))
     None.

Definition not_null_violation : exn :=
  Error "notNull Violation: OrganizationUser.permissions cannot be null".

(** The validation that the ORM runs on the built instance before the
    [beforeCreate] hook: the [permissions] column has [allowNull: false]. *)
Definition validate (orgUser : t) : option exn :=
  match orgUser.(permissions) with
  | None => Some not_null_violation
  | Some _ => None
  end.

(** [OrganizationUser.create(values)] up to the insert: build, validate,
    run the hook. *)
Definition create (values : attributes) : exn + t :=
  let orgUser := build values in
  match validate orgUser with
  | Some e => inl e
  | None => inr (beforeCreate orgUser)
  end.

(** The [count] query of [beforeDestroy]; a paranoid table leaves
    soft-deleted rows out of every query. *)
Definition other_owner (orgUser r : t) : bool :=
  bool_decide (r.(organizationId) = orgUser.(organizationId))
  && bool_decide (r.(role) = "owner")
  && r.(isActive)
  && bool_decide (r.(id) ≠ orgUser.(id))
  && bool_decide (r.(deletedAt) = None).

Definition count_other_owners (rows : list t) (orgUser : t) : nat :=
  length (List.filter (other_owner orgUser) rows).

Definition last_owner_error : exn :=
  Error "Cannot remove the last owner of an organization".

(** [beforeDestroy]. *)
Definition beforeDestroy (rows : list t) (orgUser : t) : exn + unit :=
  if bool_decide (orgUser.(role) = "owner") then
    let otherOwners := count_other_owners rows orgUser in
    if Nat.eqb otherOwners 0 then inl last_owner_error else inr tt
  else inr tt.

(** [orgUser.destroy()] at time [now]: a hook that throws aborts the
    operation and leaves the table as it was; otherwise the row is
    soft-deleted.  The result is what was thrown, if anything, and the
    table afterwards. *)
Definition destroy (now : Z) (rows : list t) (orgUser : t) : option exn * list t :=
  match beforeDestroy rows orgUser with
  | inl e => (Some e, rows)
  | inr _ =>
      (None, List.map (fun r => if bool_decide (r.(id) = orgUser.(id))
                                then set_deletedAt r (Some now) else r) rows)
  end.

(** [OrganizationUser.prototype.revokePermission].  As in [set_true], a
    write that lands on an inherited built-in leaves the model ([None]). *)
Definition revokePermission (this : t) (resource action : string) : option t :=
  let permissions := own_props (default (VObj ∅) this.(permissions)) in
  match js_get permissions resource with
  | Own acts =>
      Some (set_permissions this
              (Some (VObj (<[resource := js_set acts action F]> permissions))))
  | Inherited _ => None
  | Undefined => Some (set_permissions this (Some (VObj permissions)))
  end.

(** [OrganizationUser.prototype.isOwnerOrAdmin]. *)
Definition isOwnerOrAdmin (this : t) : bool :=
  bool_decide (this.(role) ∈ ["owner"; "admin"]).

(** [OrganizationUser.prototype.canManageUsers]. *)
Definition canManageUsers (this : t) : answer :=
  if bool_decide (this.(role) ∈ ["owner"; "admin"; "manager"]) then Returns true
  else hasPermission this "users" "write".

(** [OrganizationUser.prototype.canManageOrganization]. *)
Definition canManageOrganization (this : t) : answer :=
  if bool_decide (this.(role) ∈ ["owner"; "admin"]) then Returns true
  else hasPermission this "organizations" "write".

End OrganizationUser.

(** ** The organization model (Organization) *)

Module Organization.

(** One row of [organizations]; [parentId] is [None] for [null]. *)
Record t : Type := mk {
  id : string;
  name : string;
  slug : string;
  parentId : option string;
  isActive : bool;
  deletedAt : option Z;
}.

(** An element of the array built by [getFullHierarchy]. *)
Record entry : Type := mkEntry {
  e_id : string;
  e_name : string;
  e_slug : string;
}.

Definition entry_of (o : t) : entry := mkEntry o.(id) o.(name) o.(slug).

(** [Organization.findByPk]: the live row with that primary key. *)
Definition findByPk (rows : list t) (pk : string) : option t :=
  List.find (fun o => bool_decide (o.(id) = pk) && bool_decide (o.(deletedAt) = None)) rows.

(** [Organization.findOne({ where: { slug, isActive: true } })]. *)
Definition findActiveBySlug (rows : list t) (s : string) : option t :=
  List.find (fun o => bool_decide (o.(slug) = s) && o.(isActive)
                      && bool_decide (o.(deletedAt) = None)) rows.

(** The [while (current)] loop of [getFullHierarchy]; each unit of fuel
    pays for one iteration, and [None] means the fuel ran out while
    [current] was still set. *)
Fixpoint getFullHierarchy_loop (fuel : nat) (rows : list t)
    (hierarchy : list entry) (current : option t) : option (list entry) :=
  match current with
  | None => Some hierarchy
  | Some cur =>
      match fuel with
      | O => None
      | S fuel =>
          let hierarchy := entry_of cur :: hierarchy in
          if truthy cur.(parentId)
          then getFullHierarchy_loop fuel rows hierarchy
                 (findByPk rows (default "" cur.(parentId)))
          else getFullHierarchy_loop fuel rows hierarchy None
      end
  end.

(** [Organization.prototype.getFullHierarchy]. *)
Definition getFullHierarchy (fuel : nat) (rows : list t) (this : t)
  : option (list entry) :=
  getFullHierarchy_loop fuel rows [] (Some this).

(** The [while (current && current.parentId)] loop of [isDescendantOf]. *)
Fixpoint isDescendantOf_loop (fuel : nat) (rows : list t)
    (current : option t) (ancestorId : option string) : option bool :=
  match current with
  | None => Some false
  | Some cur =>
      if truthy cur.(parentId) then
        match fuel with
        | O => None
        | S fuel =>
            if bool_decide (cur.(parentId) = ancestorId) then Some true
            else isDescendantOf_loop fuel rows
                   (findByPk rows (default "" cur.(parentId))) ancestorId
        end
      else Some false
  end.

(** [Organization.prototype.isDescendantOf]. *)
Definition isDescendantOf (fuel : nat) (rows : list t) (this : t)
    (ancestorId : option string) : option bool :=
  isDescendantOf_loop fuel rows (Some this) ancestorId.

(** [Organization.validateHierarchy]; the two identifiers are [None] when
    [null] or [undefined]. *)
Definition validateHierarchy (fuel : nat) (rows : list t)
    (parentId childId : option string) : option bool :=
  if negb (truthy parentId) || negb (truthy childId)
     || bool_decide (parentId = childId)
  then Some false
  else
    match findByPk rows (default "" parentId) with
    | None => Some false
    | Some parent => negb <$> isDescendantOf fuel rows parent childId
    end.

(** [Organization.findAll({ where: { parentId, isActive: true } })]; the
    rows come in table order. *)
Definition findActiveChildren (rows : list t) (pid : string) : list t :=
  List.filter (fun o => bool_decide (o.(parentId) = Some pid) && o.(isActive)
                        && bool_decide (o.(deletedAt) = None)) rows.

(** The [while (queue.length > 0)] loop of [getAllDescendants]. *)
Fixpoint getAllDescendants_loop (fuel : nat) (rows : list t)
    (descendants : list t) (queue : list string) : option (list t) :=
  match queue with
  | [] => Some descendants
  | pid :: queue =>
      match fuel with
      | O => None
      | S fuel =>
          let children := findActiveChildren rows pid in
          getAllDescendants_loop fuel rows
            (descendants ++ children) (queue ++ List.map id children)
      end
  end.

(** [Organization.prototype.getAllDescendants]. *)
Definition getAllDescendants (fuel : nat) (rows : list t) (this : t)
  : option (list t) :=
  getAllDescendants_loop fuel rows [] [this.(id)].

Definition set_slug (o : t) (s : string) : t :=
  mk o.(id) o.(name) s o.(parentId) o.(isActive) o.(deletedAt).

(** *** Slug generation, on names made of ASCII characters *)

Definition in_range (lo hi : nat) (c : Ascii.ascii) : bool :=
  Nat.leb lo (Ascii.nat_of_ascii c) && Nat.leb (Ascii.nat_of_ascii c) hi.

Definition is_upper : Ascii.ascii → bool := in_range 65 90.
Definition is_lower : Ascii.ascii → bool := in_range 97 122.
Definition is_digit : Ascii.ascii → bool := in_range 48 57.
Definition is_hyphen (c : Ascii.ascii) : bool := Ascii.eqb c "-".

(** The class [\s] among the ASCII characters: tab, line feed, vertical
    tab, form feed, carriage return and space. *)
Definition is_space (c : Ascii.ascii) : bool :=
  in_range 9 13 c || Ascii.eqb c " ".

(** [toLowerCase] on an ASCII character. *)
Definition lower (c : Ascii.ascii) : Ascii.ascii :=
  if is_upper c then Ascii.ascii_of_nat (Ascii.nat_of_ascii c + 32) else c.

Fixpoint toLowerCase (s : string) : string :=
  match s with
  | EmptyString => EmptyString
  | String c s => String (lower c) (toLowerCase s)
  end.

(** [s.replace(/[^...]/g, '')]: keep the characters that satisfy [keep]. *)
Fixpoint keep_chars (keep : Ascii.ascii → bool) (s : string) : string :=
  match s with
  | EmptyString => EmptyString
  | String c s => if keep c then String c (keep_chars keep s) else keep_chars keep s
  end.

(** [s.replace(/C+/g, '-')] for a character class [C]: every maximal run of
    characters of the class becomes one hyphen.  [in_run] tells that the
    previous character was of the class. *)
Fixpoint runs_to_hyphen (C : Ascii.ascii → bool) (in_run : bool) (s : string) : string :=
  match s with
  | EmptyString => EmptyString
  | String c s =>
      if C c then
        if in_run then runs_to_hyphen C true s
        else String "-" (runs_to_hyphen C true s)
      else String c (runs_to_hyphen C false s)
  end.

Fixpoint trimStart (s : string) : string :=
  match s with
  | EmptyString => EmptyString
  | String c s' => if is_space c then trimStart s' else s
  end.

Fixpoint trimEnd (s : string) : string :=
  match s with
  | EmptyString => EmptyString
  | String c s =>
      let r := trimEnd s in
      if is_space c && String.eqb r "" then EmptyString else String c r
  end.

(** [s.trim()]; the argument that the hook passes to [trim] is ignored by
    the language. *)
Definition trim (s : string) : string := trimEnd (trimStart s).

(** The expression of the [beforeValidate] hook:
    [name.toLowerCase().replace(/[^a-z0-9\s-]/g, '').replace(/\s+/g, '-')
         .replace(/-+/g, '-').trim('-')]. *)
Definition slug_char (c : Ascii.ascii) : bool :=
  is_lower c || is_digit c || is_space c || is_hyphen c.

Definition generateSlug (name : string) : string :=
  trim (runs_to_hyphen is_hyphen false
          (runs_to_hyphen is_space false
             (keep_chars slug_char (toLowerCase name)))).

(** The [beforeValidate] hook; an empty [slug] stands for a missing one. *)
Definition beforeValidate (organization : t) : t :=
  if negb (truthy_str organization.(slug)) && truthy_str organization.(name)
  then set_slug organization (generateSlug organization.(name))
  else organization.

(** [Organization.findOne({ where: { slug } })]. *)
Definition findOneBySlug (rows : list t) (s : string) : option t :=
  List.find (fun o => bool_decide (o.(slug) = s) && bool_decide (o.(deletedAt) = None)) rows.

(** [String(counter)]. *)
Definition decimal (n : nat) : string :=
  DecimalString.NilEmpty.string_of_uint (Nat.to_uint n).

(** The [while] loop of the [beforeCreate] hook. *)
Fixpoint uniqueSlug_loop (fuel : nat) (rows : list t)
    (baseSlug current : string) (counter : nat) : option string :=
  match findOneBySlug rows current with
  | None => Some current
  | Some _ =>
      match fuel with
      | O => None
      | S fuel =>
          uniqueSlug_loop fuel rows baseSlug
            (baseSlug ++ "-" ++ decimal counter) (S counter)
      end
  end.

(** The [beforeCreate] hook. *)
Definition beforeCreate (fuel : nat) (rows : list t) (organization : t) : option t :=
  set_slug organization
    <$> uniqueSlug_loop fuel rows organization.(slug) organization.(slug) 1.

End Organization.

(** ** The user model, as far as the middleware reads it *)

Module User.

Record t : Type := mk {
  id : string;
  firebaseUid : string;
  systemRole : string;
}.

(** Modelled from the spec: the User model and its method [isSuperAdmin]
    are not among the sources.  The system role is one of [super_admin],
    [system_admin] and [user]; the top privilege tier is [super_admin]. *)
Definition isSuperAdmin (u : t) : bool :=
  bool_decide (u.(systemRole) = "super_admin").

End User.

(** ** The tenant middleware *)

Module Tenant.

(** The parts of an Express request that the middleware reads or writes. *)
Record request : Type := mkRequest {
  params : gmap string string;
  headers : gmap string string;
  user : option User.t;
  tenant : option Organization.t;
  tenantId : option string;
  tenantSlug : option string;
  orgMembership : option OrganizationUser.t;
  orgRole : option string;
  orgPermissions : option value;
}.

(** How a middleware hands the request on. *)
Inductive outcome : Type :=
| Next (req : request)                                (* next() *)
| NextError (name message : string)                   (* next(error) *)
| ResError (message : string) (status : Z) (code : string). (* res.error(...) *)

(** [a || b] on possibly absent strings. *)
Definition or_else (a b : option string) : option string :=
  if truthy a then a else b.

(** [s.split(sep)] for a one-character separator. *)
Fixpoint split (sep : Ascii.ascii) (s : string) : list string :=
  match s with
  | EmptyString => [EmptyString]
  | String c rest =>
      if Ascii.eqb c sep then EmptyString :: split sep rest
      else
        match split sep rest with
        | [] => [String c EmptyString]
        | part :: parts => String c part :: parts
        end
  end.

(** [extractSubdomain]. *)
Definition extractSubdomain (host : string) : option string :=
  let parts := split "."%char host in
  if bool_decide (3 ≤ length parts)%nat then head parts else None.

(** [extractTenantIdentifier]; [req.get('host')] reads the [host] header. *)
Definition extractTenantIdentifier (req : request) : option string :=
  if truthy (req.(params) !! "tenantSlug") then req.(params) !! "tenantSlug"
  else if truthy (req.(params) !! "orgSlug") then req.(params) !! "orgSlug"
  else
    let headerTenant :=
      or_else (req.(headers) !! "x-tenant-id") (req.(headers) !! "x-organization-slug") in
    if truthy headerTenant then headerTenant
    else
      match req.(headers) !! "host" with
      | Some host =>
          if truthy_str host then
            let subdomain := extractSubdomain host in
            if truthy subdomain
               && bool_decide (subdomain ≠ Some "www")
               && bool_decide (subdomain ≠ Some "api")
            then subdomain
            else None
          else None
      | None => None
      end.

(** [OrganizationUser.findOne({ where: { userId, organizationId, isActive: true } })]. *)
Definition findMembership (members : list OrganizationUser.t)
    (userId organizationId : string) : option OrganizationUser.t :=
  List.find (fun m =>
    bool_decide (m.(OrganizationUser.userId) = userId)
    && bool_decide (m.(OrganizationUser.organizationId) = organizationId)
    && m.(OrganizationUser.isActive)
    && bool_decide (m.(OrganizationUser.deletedAt) = None)) members.

(** [checkUserAccess]. *)
Definition checkUserAccess (members : list OrganizationUser.t)
    (user : User.t) (organizationId : string) : bool :=
  if User.isSuperAdmin user then true
  else bool_decide (is_Some (findMembership members user.(User.id) organizationId)).

(** [tenantMiddleware], without the logging and the last-access stamp. *)
Definition tenantMiddleware (orgs : list Organization.t)
    (members : list OrganizationUser.t) (req : request) : outcome :=
  match req.(user) with
  | None => NextError "AuthenticationError" "Authentication required before tenant context"
  | Some u =>
      match extractTenantIdentifier req with
      | None => ResError "Organization context required" 400 "TENANT_REQUIRED"
      | Some tenantSlug =>
          match Organization.findActiveBySlug orgs tenantSlug with
          | None => ResError "Organization not found or inactive" 404 "ORGANIZATION_NOT_FOUND"
          | Some organization =>
              if checkUserAccess members u organization.(Organization.id) then
                let membership :=
                  findMembership members u.(User.id) organization.(Organization.id) in
                Next (mkRequest req.(params) req.(headers) req.(user)
                        (Some organization)
                        (Some organization.(Organization.id))
                        (Some organization.(Organization.slug))
                        membership
                        (OrganizationUser.role <$> membership)
                        (match membership with
                         | Some m => m.(OrganizationUser.permissions)
                         | None => Some (VObj ∅)
                         end))
              else ResError "Access denied to this organization" 403 "ORGANIZATION_ACCESS_DENIED"
          end
      end
  end.

Definition context_required : outcome :=
  ResError "Organization context required" 401 "TENANT_CONTEXT_REQUIRED".

Definition insufficient_permissions : outcome :=
  ResError "Insufficient organization permissions" 403 "INSUFFICIENT_ORG_PERMISSIONS".

(** [requireOrgRole(allowedRoles)]. *)
Definition requireOrgRole (allowedRoles : list string) (req : request) : outcome :=
  match req.(tenant), req.(user) with
  | Some _, Some u =>
      if User.isSuperAdmin u then Next req
      else
        match req.(orgRole) with
        | Some r =>
            if truthy_str r && bool_decide (r ∈ allowedRoles) then Next req
            else insufficient_permissions
        | None => insufficient_permissions
        end
  | _, _ => context_required
  end.

(** [requireOrgPermission(resource, action)]. *)
Definition requireOrgPermission (resource action : string) (req : request) : outcome :=
  match req.(tenant), req.(user), req.(orgMembership) with
  | Some _, Some u, Some membership =>
      if User.isSuperAdmin u then Next req
      else
        match OrganizationUser.hasPermission membership resource action with
        | Returns true => Next req
        | Returns false => insufficient_permissions
        | Throws name message => NextError name message
        end
  | _, _, _ => context_required
  end.

(** [optionalTenantMiddleware]; whatever happens, it ends in [next()]. *)
Definition optionalTenantMiddleware (orgs : list Organization.t)
    (members : list OrganizationUser.t) (req : request) : outcome :=
  match req.(user) with
  | None => Next req
  | Some u =>
      match extractTenantIdentifier req with
      | None => Next req
      | Some tenantSlug =>
          match Organization.findActiveBySlug orgs tenantSlug with
          | None => Next req
          | Some organization =>
              if checkUserAccess members u organization.(Organization.id) then
                let membership :=
                  findMembership members u.(User.id) organization.(Organization.id) in
                Next (mkRequest req.(params) req.(headers) req.(user)
                        (Some organization)
                        (Some organization.(Organization.id))
                        (Some organization.(Organization.slug))
                        membership
                        (OrganizationUser.role <$> membership)
                        (match membership with
                         | Some m => m.(OrganizationUser.permissions)
                         | None => Some (VObj ∅)
                         end))
              else Next req
          end
      end
  end.

End Tenant.

(** ** Vocabulary of the specification *)

(** The six values of the [role] column, in the order of the ENUM. *)
Inductive role : Type := owner | admin | manager | employee | viewer | guest.

Definition role_name (r : role) : string :=
  match r with
  | owner => "owner" | admin => "admin" | manager => "manager"
  | employee => "employee" | viewer => "viewer" | guest => "guest"
  end.

Definition role_values : list string :=
  role_name <$> [owner; admin; manager; employee; viewer; guest].

(** The privilege order [owner > admin > manager > employee > viewer > guest]. *)
Definition privilege (r : role) : nat :=
  match r with
  | owner => 5 | admin => 4 | manager => 3
  | employee => 2 | viewer => 1 | guest => 0
  end.

(** The default table of a role, as [getRolePermissions] returns it. *)
Definition default_table (r : role) : permission_map :=
  own_props (getRolePermissions (role_name r)).

(** The cell [resource.action] of a permission map is stored and is
    exactly [true]. *)
Definition cell_true (p : permission_map) (resource action : string) : Prop :=
  ∃ acts, p !! resource = Some acts ∧ acts !! action = Some (CBool true).

(** The cells of a map that hold [true], listed. *)
Definition true_cells (p : permission_map) : list (string * string) :=
  '(resource, acts) ← map_to_list p;
  '(action, c) ← map_to_list acts;
  if strict_eq_true (Some c) then [(resource, action)] else [].

(** [r] is an active owner membership of the organization of [orgUser],
    other than [orgUser] itself. *)
Definition other_active_owner (orgUser r : OrganizationUser.t) : Prop :=
  r.(OrganizationUser.organizationId) = orgUser.(OrganizationUser.organizationId)
  ∧ r.(OrganizationUser.role) = "owner"
  ∧ r.(OrganizationUser.isActive) = true
  ∧ r.(OrganizationUser.id) ≠ orgUser.(OrganizationUser.id)
  ∧ r.(OrganizationUser.deletedAt) = None.

#[global] Instance other_active_owner_dec orgUser r :
  Decision (other_active_owner orgUser r).
Proof. unfold other_active_owner. apply _. Defined.

(** The map that [hasPermission] and the hooks read: [{}] stands in for a
    missing map, and a built-in has no own property. *)
Definition stored (m : OrganizationUser.t) : permission_map :=
  own_props (default (VObj ∅) m.(OrganizationUser.permissions)).

(** The character [c] occurs in [s]. *)
Fixpoint occurs (c : Ascii.ascii) (s : string) : bool :=
  match s with
  | EmptyString => false
  | String c' s => Ascii.eqb c' c || occurs c s
  end.

(** *** Tenant resolution, as the specification words it *)

(** The explicit path parameter: [tenantSlug], or else [orgSlug]. *)
Definition path_parameter (req : Tenant.request) : option string :=
  Tenant.or_else (req.(Tenant.params) !! "tenantSlug") (req.(Tenant.params) !! "orgSlug").

(** The designated header: [x-tenant-id], or else [x-organization-slug]. *)
Definition designated_header (req : Tenant.request) : option string :=
  Tenant.or_else (req.(Tenant.headers) !! "x-tenant-id")
                 (req.(Tenant.headers) !! "x-organization-slug").

(** The leftmost label of the host, taken only when the host has at least
    three dot-separated labels and the label is neither [www] nor [api]. *)
Definition host_subdomain (req : Tenant.request) : option string :=
  host ← req.(Tenant.headers) !! "host";
  let labels := Tenant.split "." host in
  label ← head labels;
  if bool_decide ((3 ≤ length labels)%nat ∧ label ≠ "www" ∧ label ≠ "api")
  then Some label else None.

(** The first signal that is present, that is, a non-empty string. *)
Definition first_present (signals : list (option string)) : option string :=
  mjoin (List.find truthy signals).

Definition resolve_tenant (req : Tenant.request) : option string :=
  first_present [path_parameter req; designated_header req; host_subdomain req].

(** *** The organization forest *)

(** [parent_chain rows o path]: following the parent references from [o]
    through the stored rows reaches a root; [path] lists the organizations
    met on the way, from [o] itself to the root. *)
Inductive parent_chain (rows : list Organization.t)
  : Organization.t → list Organization.t → Prop :=
| chain_root o :
    truthy o.(Organization.parentId) = false →
    parent_chain rows o [o]
| chain_step o pid p path :
    o.(Organization.parentId) = Some pid →
    truthy_str pid = true →
    Organization.findByPk rows pid = Some p →
    parent_chain rows p path →
    parent_chain rows o (o :: path).

(** [ancestor_within rows a o n]: the identifier [a] is met as a parent
    reference after at most [n] steps up from [o]. *)
Inductive ancestor_within (rows : list Organization.t) (a : string)
  : Organization.t → nat → Prop :=
| ancestor_parent o :
    o.(Organization.parentId) = Some a →
    truthy_str a = true →
    ancestor_within rows a o 1
| ancestor_step o pid p n :
    o.(Organization.parentId) = Some pid →
    truthy_str pid = true →
    Organization.findByPk rows pid = Some p →
    ancestor_within rows a p n →
    ancestor_within rows a o (S n).

(** The three grounds on which a new parent must be refused. *)
Definition must_reject (rows : list Organization.t) (parentId childId : string) : Prop :=
  parentId = childId
  ∨ Organization.findByPk rows parentId = None
  ∨ ∃ parent n,
      Organization.findByPk rows parentId = Some parent
      ∧ ancestor_within rows childId parent n.

(** Two organizations that name each other as parent. *)
Definition cycle_a : Organization.t :=
  Organization.mk "o-1" "Acme" "acme" (Some "o-2") true None.
Definition cycle_b : Organization.t :=
  Organization.mk "o-2" "Acme Europe" "acme-europe" (Some "o-1") true None.
Definition cycle_rows : list Organization.t := [cycle_a; cycle_b].

(** A root and one child. *)
Definition tree_root : Organization.t :=
  Organization.mk "o-1" "Acme" "acme" None true None.
Definition tree_child : Organization.t :=
  Organization.mk "o-2" "Acme Europe" "acme-europe" (Some "o-1") true None.
Definition tree_rows : list Organization.t := [tree_root; tree_child].

(** The same, beside a second root. *)
Definition second_root : Organization.t :=
  Organization.mk "o-3" "Globex" "globex" None true None.
Definition forest_rows : list Organization.t := [tree_root; tree_child; second_root].

(** *** The role-change scenario *)

(** A [viewer] is made [manager], is granted [reports.export], and is made
    [viewer] again. *)
Definition viewer_manager_viewer (m : OrganizationUser.t) : option OrganizationUser.t :=
  m1 ← OrganizationUser.updateRole m "manager";
  m2 ← OrganizationUser.grantPermission m1 "reports" "export";
  OrganizationUser.updateRole m2 "viewer".

(** No resource key of the stored map is the name of an inherited
    property. *)
Definition plain_keys (m : OrganizationUser.t) : Prop :=
  ∀ k, k ∈ Object_prototype_keys → stored m !! k = None.

(** The attributes of a [viewer] with [permissions: {}], and the
    membership that [create] makes of them. *)
Definition viewer_attributes : OrganizationUser.attributes :=
  OrganizationUser.mkAttributes "m-1" "u-1" "o-1" (Some "viewer") (Some (Some (VObj ∅))) None.

Definition fresh_viewer : OrganizationUser.t :=
  OrganizationUser.beforeCreate (OrganizationUser.build viewer_attributes).

(** *** Further vocabulary *)

(** The organization [org] has a live, active membership of role [owner]
    among [rows]. *)
Definition has_active_owner (rows : list OrganizationUser.t) (org : string) : Prop :=
  ∃ r, r ∈ rows
       ∧ r.(OrganizationUser.organizationId) = org
       ∧ r.(OrganizationUser.role) = "owner"
       ∧ r.(OrganizationUser.isActive) = true
       ∧ r.(OrganizationUser.deletedAt) = None.

(** [upward_walk rows o path]: the parent references lead from [o] to an
    organization that has no parent or whose parent is not stored; [path]
    lists the organizations met, [o] first. *)
Inductive upward_walk (rows : list Organization.t)
  : Organization.t → list Organization.t → Prop :=
| walk_root o :
    truthy o.(Organization.parentId) = false →
    upward_walk rows o [o]
| walk_missing o pid :
    o.(Organization.parentId) = Some pid →
    truthy_str pid = true →
    Organization.findByPk rows pid = None →
    upward_walk rows o [o]
| walk_step o pid p path :
    o.(Organization.parentId) = Some pid →
    truthy_str pid = true →
    Organization.findByPk rows pid = Some p →
    upward_walk rows p path →
    upward_walk rows o (o :: path).

(** [p] is the stored row that the parent reference of [o] names: the
    next value of [current] in the walk of [getFullHierarchy]. *)
Definition parent_row (rows : list Organization.t) (o p : Organization.t) : Prop :=
  ∃ pid, o.(Organization.parentId) = Some pid
         ∧ truthy_str pid = true
         ∧ Organization.findByPk rows pid = Some p.

(** The parent references lead from [o] into a cycle: to a row [c] from
    which one or more steps lead back to [c]. *)
Definition leads_to_cycle (rows : list Organization.t) (o : Organization.t) : Prop :=
  ∃ c, rtc (parent_row rows) o c ∧ tc (parent_row rows) c c.

(** [o] is a live, active row whose parent reference is [a]. *)
Definition active_child (rows : list Organization.t) (a : string)
    (o : Organization.t) : Prop :=
  o ∈ rows
  ∧ o.(Organization.parentId) = Some a
  ∧ o.(Organization.isActive) = true
  ∧ o.(Organization.deletedAt) = None.

(** [o] is reached from the identifier [a] through active children. *)
Inductive active_descendant (rows : list Organization.t) (a : string)
  : Organization.t → Prop :=
| descendant_child o :
    active_child rows a o → active_descendant rows a o
| descendant_step c o :
    active_child rows a c →
    active_descendant rows c.(Organization.id) o →
    active_descendant rows a o.

(** The table after the parent of the organization [childId] is set to
    [parentId]. *)
Definition reparent (rows : list Organization.t) (childId parentId : string)
  : list Organization.t :=
  (λ o, if bool_decide (o.(Organization.id) = childId)
        then Organization.mk o.(Organization.id) o.(Organization.name)
               o.(Organization.slug) (Some parentId)
               o.(Organization.isActive) o.(Organization.deletedAt)
        else o) <$> rows.

(** All characters of [s] satisfy [P]. *)
Fixpoint all_chars (P : Ascii.ascii → bool) (s : string) : bool :=
  match s with
  | EmptyString => true
  | String c s => P c && all_chars P s
  end.

(** [s] holds two hyphens in a row. *)
Fixpoint double_hyphen (s : string) : bool :=
  match s with
  | String c1 ((String c2 _) as s') =>
      (Organization.is_hyphen c1 && Organization.is_hyphen c2) || double_hyphen s'
  | _ => false
  end.

(** The characters that the [is] validator of the [slug] column admits:
    [/^[a-z0-9-]+$/]. *)
Definition valid_slug_char (c : Ascii.ascii) : bool :=
  Organization.is_lower c || Organization.is_digit c || Organization.is_hyphen c.

(** A character below 128. *)
Definition is_ascii7 (c : Ascii.ascii) : bool :=
  Nat.ltb (Ascii.nat_of_ascii c) 128.

(** A number of iterations that is enough for the breadth-first walk
    below an organization of height [h] in a table of [n] rows. *)
Fixpoint walk_cost (n h : nat) : nat :=
  match h with
  | O => 1
  | S h => 1 + S n * walk_cost n h
  end.

(** [height] ranks the organizations so that every active child ranks
    below its parent: the active part of the table is a forest. *)
Definition ranked (rows : list Organization.t) (height : string → nat) : Prop :=
  ∀ a o, active_child rows a o → height o.(Organization.id) < height a.

(** ** Reading a property *)

Lemma js_get_own {A} (o : gmap string A) k v :
  js_get o k = Own v ↔ o !! k = Some v.
Proof.
  unfold js_get. destruct (o !! k); [naive_solver|].
  case_bool_decide; naive_solver.
Qed.

Lemma strict_eq_true_Some c : strict_eq_true (Some c) = true ↔ c = CBool true.
Proof. destruct c as [|[]| |]; simpl; naive_solver. Qed.

Lemma Returns_inj (b b' : bool) : Returns b = Returns b' ↔ b = b'.
Proof. split; [by intros [= ?]|by intros ->]. Qed.

Lemma builtin_allows_not_true name action : builtin_allows name action ≠ Returns true.
Proof. unfold builtin_allows. by destruct (builtin_get name action). Qed.

Lemma builtin_permission_not_true name resource action :
  builtin_permission name resource action ≠ Returns true.
Proof.
  unfold builtin_permission, function_allows.
  destruct (builtin_get name resource); [done| |done]. by case_bool_decide.
Qed.

Lemma resource_allows_true (rp : prop actions) action :
  OrganizationUser.resource_allows rp action = true ↔
  ∃ acts, rp = Own acts ∧ acts !! action = Some (CBool true).
Proof.
  unfold OrganizationUser.resource_allows.
  destruct rp as [acts|n|].
  - rewrite Returns_inj. destruct (js_get acts action) as [c|n|] eqn:E.
    + apply js_get_own in E. rewrite strict_eq_true_Some.
      split; [intros ->; eauto|]. intros (a & [= <-] & H). congruence.
    + split; [done|]. intros (a & [= <-] & H). apply js_get_own in H. congruence.
    + split; [done|]. intros (a & [= <-] & H). apply js_get_own in H. congruence.
  - split; [by intros ?%builtin_allows_not_true|]. by intros (a & ? & _).
  - split; [done|]. by intros (a & ? & _).
Qed.

Lemma hasPermission_cell_true (m : OrganizationUser.t) p resource action :
  m.(OrganizationUser.permissions) = Some (VObj p) →
  OrganizationUser.hasPermission m resource action = true ↔ cell_true p resource action.
Proof.
  intros Hp. unfold OrganizationUser.hasPermission, cell_true. rewrite Hp. simpl.
  rewrite resource_allows_true. setoid_rewrite js_get_own. done.
Qed.

Lemma true_cells_spec (p : permission_map) resource action :
  (resource, action) ∈ true_cells p ↔ cell_true p resource action.
Proof.
  unfold true_cells, cell_true. rewrite list_elem_of_bind. split.
  - intros ([r acts] & Hin & Hr). apply elem_of_map_to_list in Hr.
    apply list_elem_of_bind in Hin as ([a c] & Hin & Ha).
    apply elem_of_map_to_list in Ha.
    destruct (strict_eq_true (Some c)) eqn:E; [|by apply elem_of_nil in Hin].
    apply list_elem_of_singleton in Hin as [= -> ->].
    apply strict_eq_true_Some in E as ->. eauto.
  - intros (acts & Hr & Ha). exists (resource, acts). split.
    + apply list_elem_of_bind. exists (action, CBool true). split.
      * simpl. apply list_elem_of_singleton. done.
      * by apply elem_of_map_to_list.
    + by apply elem_of_map_to_list.
Qed.

(** ** The Permission Matrix *)

Lemma getRolePermissions_role (r : role) :
  getRolePermissions (role_name r) = VObj (default_table r).
Proof. by destruct r. Qed.

Lemma rolePermissions_lookup (k : string) :
  k ∉ role_values → rolePermissions !! k = None.
Proof.
  intros Hk. unfold rolePermissions.
  assert (∀ r, k ≠ role_name r) as Hne.
  { intros r ->. apply Hk. unfold role_values. destruct r; simpl; set_solver. }
  repeat (rewrite lookup_insert_ne;
          [|first [apply not_eq_sym, (Hne owner) | apply not_eq_sym, (Hne admin)
                  |apply not_eq_sym, (Hne manager) | apply not_eq_sym, (Hne employee)
                  |apply not_eq_sym, (Hne viewer)]]).
  apply lookup_singleton_ne, not_eq_sym, (Hne guest).
Qed.

(** Away from the six role names and from the names that every object
    inherits, the fallback of [getRolePermissions] is taken. *)
Lemma getRolePermissions_fallback (k : string) :
  k ∉ role_values → k ∉ Object_prototype_keys →
  getRolePermissions k = VObj guest_table.
Proof.
  intros Hk Hp. unfold getRolePermissions, js_get.
  rewrite rolePermissions_lookup by done.
  by rewrite bool_decide_eq_false_2.
Qed.

Lemma getRolePermissions_inherited (k : string) :
  k ∈ Object_prototype_keys → getRolePermissions k = VBuiltin k.
Proof.
  intros Hp. unfold getRolePermissions, js_get.
  rewrite rolePermissions_lookup.
  - by rewrite bool_decide_eq_true_2.
  - intros Hk. revert Hp. unfold role_values, Object_prototype_keys in *.
    simpl in Hk. set_unfold. naive_solver.
Qed.

(** C8 (the code departs from it): [getRolePermissions] is meant to return
    the [guest] table for every input that is not one of the six role
    values.  The string [constructor] is none of the six, and the function
    returns the built-in found under that name on [Object.prototype], which
    is not the [guest] table. *)
Theorem getRolePermissions_constructor :
  ("constructor" ∉ role_values)
  ∧ getRolePermissions "constructor" = VBuiltin "constructor"
  ∧ getRolePermissions "constructor" ≠ VObj guest_table.
Proof.
  split; [|split].
  - unfold role_values. simpl. set_unfold. naive_solver.
  - apply getRolePermissions_inherited. unfold Object_prototype_keys. set_solver.
  - rewrite getRolePermissions_inherited; [done|].
    unfold Object_prototype_keys. set_solver.
Qed.

(** C10: along the privilege order the default tables only grow: a cell
    that is [true] in the table of a role is [true] in the table of every
    more privileged role; and the tables of [viewer] and [employee] are the
    same. *)
Theorem default_tables_monotone :
  (∀ (r s : role) (resource action : string),
     privilege s < privilege r →
     cell_true (default_table s) resource action →
     cell_true (default_table r) resource action)
  ∧ default_table viewer = default_table employee.
Proof.
  split; [|reflexivity].
  intros r s resource action Hlt. rewrite <-!true_cells_spec.
  revert resource action.
  assert (Forall (λ c, c ∈ true_cells (default_table r)) (true_cells (default_table s))) as H.
  { destruct r, s; simpl in Hlt; try lia;
      apply (bool_decide_unpack _); vm_compute; exact I. }
  intros resource action Hin. rewrite Forall_forall in H. by apply H.
Qed.

Lemma default_tables_monotone_witness :
  cell_true (default_table admin) "reports" "export".
Proof.
  apply (proj1 default_tables_monotone admin manager "reports" "export").
  - simpl. lia.
  - apply true_cells_spec. apply (bool_decide_unpack _). vm_compute. exact I.
Defined.

(** ** The membership model *)

Lemma hasPermission_inherited_resource (m : OrganizationUser.t) (resource action : string) :
  (∀ b, m.(OrganizationUser.permissions) ≠ Some (VBuiltin b)) →
  stored m !! resource = None →
  resource ∈ Object_prototype_keys →
  OrganizationUser.hasPermission m resource action = builtin_allows resource action.
Proof.
  intros Hb Hr Hk. unfold OrganizationUser.hasPermission. unfold stored in Hr.
  destruct (OrganizationUser.permissions m) as [[p|b]|]; simpl in *.
  - unfold js_get. rewrite Hr. by rewrite bool_decide_eq_true_2.
  - by destruct (Hb b).
  - unfold js_get. rewrite Hr. by rewrite bool_decide_eq_true_2.
Qed.

(** C9 (the code departs from it): [hasPermission] is meant to return
    [false], and never to throw, when the resource key is absent from the
    permission map.  The key [constructor] is absent from the map of
    [fresh_viewer], and from a missing map; the read
    [permissions['constructor']] finds the inherited [Object] function, which
    is truthy, and the read of [caller] or [arguments] on it throws a
    [TypeError]. *)
Theorem hasPermission_throws_on_inherited_resource :
  let no_map := OrganizationUser.mk "m-2" "u-2" "o-1" "viewer" None true None in
  fresh_viewer.(OrganizationUser.permissions) = Some (VObj viewer_table)
  ∧ viewer_table !! "constructor" = None
  ∧ OrganizationUser.hasPermission fresh_viewer "constructor" "caller" = poison_pill
  ∧ OrganizationUser.hasPermission fresh_viewer "constructor" "arguments" = poison_pill
  ∧ OrganizationUser.hasPermission no_map "constructor" "caller" = poison_pill
  ∧ OrganizationUser.hasPermission fresh_viewer "constructor" "caller" ≠ Returns false.
Proof.
  intros no_map.
  assert ("constructor" ∈ Object_prototype_keys) as Hk
    by (unfold Object_prototype_keys; set_solver).
  split; [vm_compute; reflexivity|]. split; [reflexivity|].
  assert (∀ m action,
            (∀ b, m.(OrganizationUser.permissions) ≠ Some (VBuiltin b)) →
            stored m !! "constructor" = None →
            action ∈ restricted_properties →
            OrganizationUser.hasPermission m "constructor" action = poison_pill) as H.
  { intros m action Hb Hs Ha. rewrite hasPermission_inherited_resource by done.
    unfold builtin_allows, builtin_get. simpl. by rewrite bool_decide_eq_true_2. }
  assert (OrganizationUser.hasPermission fresh_viewer "constructor" "caller" = poison_pill)
    as Hc.
  { apply H; [done|reflexivity|unfold restricted_properties; set_solver]. }
  split; [done|]. split.
  { apply H; [done|reflexivity|unfold restricted_properties; set_solver]. }
  split.
  { apply H; [done|reflexivity|unfold restricted_properties; set_solver]. }
  by rewrite Hc.
Qed.

Lemma build_permissions_omitted (values : OrganizationUser.attributes) :
  values.(OrganizationUser.a_permissions) = None →
  (OrganizationUser.build values).(OrganizationUser.permissions)
  = Some (VObj permissions_defaultValue).
Proof. intros H. unfold OrganizationUser.build. simpl. by rewrite H. Qed.

(** When the caller leaves [permissions] out, [beforeCreate] finds the
    column default in place, which has five keys, and keeps it. *)
Lemma create_permissions_omitted (values : OrganizationUser.attributes) :
  values.(OrganizationUser.a_permissions) = None →
  OrganizationUser.create values = inr (OrganizationUser.build values).
Proof.
  intros H. unfold OrganizationUser.create, OrganizationUser.validate,
    OrganizationUser.beforeCreate.
  rewrite build_permissions_omitted by done.
  rewrite bool_decide_eq_false_2; [done|].
  simpl. intros Heq.
  assert (is_Some (permissions_defaultValue !! "users")
          = is_Some ((∅ : permission_map) !! "users")) as Hl
    by (by rewrite Heq).
  rewrite lookup_empty in Hl.
  assert (is_Some (permissions_defaultValue !! "users")) as Hs by (by eexists).
  rewrite Hl in Hs. by destruct Hs.
Qed.

(** With [permissions: {}] the hook does fill in the table of the role;
    [permissions: null] does not pass the validation. *)
Lemma create_permissions_empty (values : OrganizationUser.attributes) :
  (values.(OrganizationUser.a_permissions) = Some (Some (VObj ∅)) →
   OrganizationUser.create values
   = inr (OrganizationUser.set_permissions (OrganizationUser.build values)
            (Some (getRolePermissions
                     (default role_defaultValue values.(OrganizationUser.a_role))))))
  ∧ (values.(OrganizationUser.a_permissions) = Some None →
     OrganizationUser.create values = inl OrganizationUser.not_null_violation).
Proof.
  split; intros H; unfold OrganizationUser.create, OrganizationUser.validate,
    OrganizationUser.beforeCreate, OrganizationUser.build; simpl; rewrite H; simpl; [|done].
  by rewrite bool_decide_eq_true_2.
Qed.

Lemma create_viewer_attributes : OrganizationUser.create viewer_attributes = inr fresh_viewer.
Proof. reflexivity. Qed.

(** C3 (the code departs from it): a membership created without
    [permissions] is meant to receive the default table of its role.
    Created as [owner] with [permissions] left out, the membership keeps the
    all-[false] default of the column instead; created with no role either,
    it is an [employee] with the same all-[false] map. *)
Theorem create_keeps_column_default :
  ∃ as_owner unspecified,
    OrganizationUser.create
      (OrganizationUser.mkAttributes "m-1" "u-1" "o-1" (Some "owner") None None)
    = inr as_owner
    ∧ OrganizationUser.create
        (OrganizationUser.mkAttributes "m-2" "u-2" "o-1" None None None)
      = inr unspecified
    ∧ as_owner.(OrganizationUser.permissions) = Some (VObj permissions_defaultValue)
    ∧ as_owner.(OrganizationUser.permissions) ≠ Some (getRolePermissions "owner")
    ∧ OrganizationUser.hasPermission as_owner "users" "read" = false
    ∧ unspecified.(OrganizationUser.role) = "employee"
    ∧ unspecified.(OrganizationUser.permissions) = Some (VObj permissions_defaultValue)
    ∧ unspecified.(OrganizationUser.permissions) ≠ Some (getRolePermissions "employee").
Proof.
  assert (∀ r : role, VObj permissions_defaultValue ≠ getRolePermissions (role_name r)) as Hne.
  { intros r Heq.
    assert (own_props (VObj permissions_defaultValue) !! "organizations" ≫= (.!! "read")
            = own_props (getRolePermissions (role_name r)) !! "organizations"
                ≫= (.!! "read")) as Hl
      by (by rewrite Heq).
    destruct r; vm_compute in Hl; discriminate. }
  eexists _, _.
  split; [by apply create_permissions_omitted|].
  split; [by apply create_permissions_omitted|].
  split; [reflexivity|].
  split.
  { intros Heq. apply (Hne owner). simpl in *. congruence. }
  split; [vm_compute; reflexivity|].
  split; [reflexivity|].
  split; [reflexivity|].
  intros Heq. apply (Hne employee). simpl in *. congruence.
Qed.

Lemma count_other_owners_filter (rows : list OrganizationUser.t) orgUser :
  OrganizationUser.count_other_owners rows orgUser
  = length (filter (other_active_owner orgUser) rows).
Proof.
  unfold OrganizationUser.count_other_owners.
  induction rows as [|r rows IH]; [done|].
  simpl. rewrite filter_cons.
  assert (OrganizationUser.other_owner orgUser r
          = bool_decide (other_active_owner orgUser r)) as ->.
  { apply Bool.eq_true_iff_eq. rewrite bool_decide_eq_true.
    unfold OrganizationUser.other_owner, other_active_owner.
    rewrite !andb_true_iff, !bool_decide_eq_true. tauto. }
  case_bool_decide; destruct (decide (other_active_owner orgUser r)); simpl;
    try done; by rewrite IH.
Qed.

Lemma destroy_deletes now (rows : list OrganizationUser.t) orgUser rows' :
  OrganizationUser.destroy now rows orgUser = (None, rows') →
  length rows' = length rows
  ∧ ∀ r', r' ∈ rows' →
      (r'.(OrganizationUser.id) = orgUser.(OrganizationUser.id)
       ∧ r'.(OrganizationUser.deletedAt) = Some now)
      ∨ (r'.(OrganizationUser.id) ≠ orgUser.(OrganizationUser.id) ∧ r' ∈ rows).
Proof.
  unfold OrganizationUser.destroy.
  destruct (OrganizationUser.beforeDestroy rows orgUser); [done|].
  intros [= <-]. split; [by rewrite length_map|].
  intros r' Hin. apply list_elem_of_In, in_map_iff in Hin as (r & <- & Hin).
  apply list_elem_of_In in Hin. case_bool_decide; [left|right]; done.
Qed.

(** C5: removing an [owner] membership.  When no other active owner
    membership of the same organization is stored, the removal fails with
    the last-owner error and the table is left as it was; when there is at
    least one, the removal goes through and the row is marked deleted. *)
Theorem last_owner_is_kept (now : Z) (rows : list OrganizationUser.t)
    (orgUser : OrganizationUser.t) :
  orgUser.(OrganizationUser.role) = "owner" →
  (length (filter (other_active_owner orgUser) rows) = 0 →
   OrganizationUser.destroy now rows orgUser
   = (Some OrganizationUser.last_owner_error, rows))
  ∧ ((1 ≤ length (filter (other_active_owner orgUser) rows))%nat →
     ∃ rows',
       OrganizationUser.destroy now rows orgUser = (None, rows')
       ∧ ∀ r', r' ∈ rows' →
           r'.(OrganizationUser.id) = orgUser.(OrganizationUser.id) →
           r'.(OrganizationUser.deletedAt) = Some now).
Proof.
  intros Hrole. rewrite <-count_other_owners_filter.
  unfold OrganizationUser.destroy, OrganizationUser.beforeDestroy.
  rewrite bool_decide_eq_true_2 by done.
  split; intros Hn.
  - by rewrite Hn.
  - destruct (OrganizationUser.count_other_owners rows orgUser) eqn:E; [lia|].
    simpl. eexists. split; [done|].
    intros r' Hin Hid.
    apply list_elem_of_In, in_map_iff in Hin as (r & <- & Hin).
    revert Hid. case_bool_decide; [done|]. intros; congruence.
Qed.

Lemma last_owner_is_kept_witness :
  let o1 := OrganizationUser.mk "m-1" "u-1" "o-1" "owner" None true None in
  let o2 := OrganizationUser.mk "m-2" "u-2" "o-1" "owner" None true None in
  OrganizationUser.destroy 7 [o1] o1 = (Some OrganizationUser.last_owner_error, [o1])
  ∧ ∃ rows', OrganizationUser.destroy 7 [o1; o2] o1 = (None, rows').
Proof.
  intros o1 o2. split.
  - apply (last_owner_is_kept 7 [o1] o1); reflexivity.
  - destruct (proj2 (last_owner_is_kept 7 [o1; o2] o1 eq_refl)) as (rows' & H & _).
    + vm_compute. lia.
    + by exists rows'.
Defined.

(** ** The tenant middleware: guards *)

Lemma requireOrgPermission_without_membership resource action (req : Tenant.request) :
  req.(Tenant.orgMembership) = None →
  Tenant.requireOrgPermission resource action req = Tenant.context_required.
Proof.
  intros H. unfold Tenant.requireOrgPermission. rewrite H.
  by destruct (Tenant.tenant req), (Tenant.user req).
Qed.

(** With a membership row in the context, the bypass of the permission
    guard does apply. *)
Lemma requireOrgPermission_super_admin_member resource action (req : Tenant.request) o u m :
  req.(Tenant.tenant) = Some o → req.(Tenant.user) = Some u →
  req.(Tenant.orgMembership) = Some m → User.isSuperAdmin u = true →
  Tenant.requireOrgPermission resource action req = Tenant.Next req.
Proof.
  intros Ho Hu Hm Hs. unfold Tenant.requireOrgPermission.
  by rewrite Ho, Hu, Hm, Hs.
Qed.

(** The role guard has no such precondition on the membership. *)
Lemma requireOrgRole_super_admin allowedRoles (req : Tenant.request) o u :
  req.(Tenant.tenant) = Some o → req.(Tenant.user) = Some u →
  User.isSuperAdmin u = true →
  Tenant.requireOrgRole allowedRoles req = Tenant.Next req.
Proof.
  intros Ho Hu Hs. unfold Tenant.requireOrgRole. by rewrite Ho, Hu, Hs.
Qed.

(** C2 (the code departs from it): the permission guard is meant to pass
    for a super admin whatever the resource and action, also when the
    context holds no membership.  For a super admin without a membership
    row in the organization [acme], [tenantMiddleware] builds a context
    whose membership is [null]; on that context the permission guard
    answers 401 [TENANT_CONTEXT_REQUIRED] for every resource and action,
    while the role guard lets the same request through. *)
Theorem requireOrgPermission_rejects_bypass_context :
  let acme := Organization.mk "o-1" "Acme" "acme" None true None in
  let root := User.mk "u-1" "fb-1" "super_admin" in
  let req :=
    Tenant.mkRequest {[ "tenantSlug" := "acme" ]} ∅ (Some root)
                     None None None None None None in
  User.isSuperAdmin root = true
  ∧ ∃ ctx,
      Tenant.tenantMiddleware [acme] [] req = Tenant.Next ctx
      ∧ ctx.(Tenant.orgMembership) = None
      ∧ (∀ resource action,
           Tenant.requireOrgPermission resource action ctx
           = Tenant.ResError "Organization context required" 401 "TENANT_CONTEXT_REQUIRED")
      ∧ Tenant.requireOrgRole ["owner"] ctx = Tenant.Next ctx.
Proof.
  intros acme root req. split; [reflexivity|].
  eexists. split; [vm_compute; reflexivity|].
  split; [reflexivity|]. split.
  - intros resource action. by apply requireOrgPermission_without_membership.
  - reflexivity.
Qed.

(** ** The tenant identifier *)

Lemma split_nonempty sep s : Tenant.split sep s ≠ [].
Proof.
  destruct s as [|c s]; simpl; [done|].
  destruct (Ascii.eqb c sep); [done|]. by destruct (Tenant.split sep s).
Qed.

(** [split] cuts at every separator and nowhere else: joining the parts
    with the separator gives the string back, and no part holds one. *)
Lemma split_concat sep s :
  String.concat (String sep EmptyString) (Tenant.split sep s) = s.
Proof.
  induction s as [|c s IH]; simpl; [done|].
  destruct (Ascii.eqb c sep) eqn:E.
  - apply Ascii.eqb_eq in E as ->. simpl.
    destruct (Tenant.split sep s) eqn:Es; [by apply split_nonempty in Es|].
    by rewrite IH.
  - destruct (Tenant.split sep s) as [|part parts] eqn:Es;
      [by apply split_nonempty in Es|].
    simpl in *. destruct parts; simpl in *; by rewrite <-IH.
Qed.

Lemma split_parts sep s part :
  part ∈ Tenant.split sep s → occurs sep part = false.
Proof.
  revert part. induction s as [|c s IH]; simpl; intros part.
  - intros ->%list_elem_of_singleton. done.
  - destruct (Ascii.eqb c sep) eqn:E.
    + intros [->|Hin]%elem_of_cons; [done|by apply IH].
    + destruct (Tenant.split sep s) as [|p ps] eqn:Es.
      * intros ->%list_elem_of_singleton. simpl. by rewrite E.
      * intros [->|Hin]%elem_of_cons.
        -- simpl. rewrite E. simpl. apply IH. by left.
        -- apply IH. by right.
Qed.

Lemma truthy_Some_str (s : option string) :
  truthy s = true ↔ ∃ x, s = Some x ∧ x ≠ "".
Proof.
  destruct s as [x|]; simpl; [|naive_solver].
  unfold truthy_str. rewrite negb_true_iff, String.eqb_neq. naive_solver.
Qed.

Lemma extractTenantIdentifier_path (req : Tenant.request) :
  truthy (path_parameter req) = true →
  Tenant.extractTenantIdentifier req = path_parameter req.
Proof.
  unfold path_parameter, Tenant.or_else, Tenant.extractTenantIdentifier.
  destruct (truthy (Tenant.params req !! "tenantSlug")); [done|].
  by intros ->.
Qed.

Lemma extractSubdomain_host (req : Tenant.request) host :
  req.(Tenant.headers) !! "host" = Some host →
  host_subdomain req =
    match Tenant.extractSubdomain host with
    | Some label =>
        if bool_decide (label ≠ "www" ∧ label ≠ "api") then Some label else None
    | None => None
    end.
Proof.
  intros Hh. unfold host_subdomain, Tenant.extractSubdomain. rewrite Hh. simpl.
  destruct (Tenant.split "." host) as [|label labels] eqn:Es;
    [by apply split_nonempty in Es|].
  simpl. repeat case_bool_decide; simpl; try done; naive_solver.
Qed.

(** C6: the tenant identifier is the first signal present among the path
    parameter, the designated header and the host subdomain, in this order,
    and there is no tenant when none is present; the subdomain is the
    leftmost label of a host of at least three labels, unless it is [www] or
    [api].  A request with path parameter [acme] and header [other-co]
    resolves to [acme]. *)
Theorem extractTenantIdentifier_priority :
  (∀ req : Tenant.request, Tenant.extractTenantIdentifier req = resolve_tenant req)
  ∧ (∀ req : Tenant.request,
       req.(Tenant.params) !! "tenantSlug" = Some "acme" →
       req.(Tenant.headers) !! "x-tenant-id" = Some "other-co" →
       Tenant.extractTenantIdentifier req = Some "acme").
Proof.
  split.
  - intros req. unfold resolve_tenant, first_present. simpl.
    destruct (truthy (path_parameter req)) eqn:Hp.
    { by rewrite extractTenantIdentifier_path. }
    unfold Tenant.extractTenantIdentifier.
    unfold path_parameter, Tenant.or_else in Hp.
    destruct (truthy (Tenant.params req !! "tenantSlug")) eqn:Hp1; [congruence|].
    rewrite Hp. fold (designated_header req).
    destruct (truthy (designated_header req)) eqn:Hh; [done|].
    destruct (Tenant.headers req !! "host") as [host|] eqn:Hhost.
    + rewrite (extractSubdomain_host req host Hhost).
      destruct (Tenant.extractSubdomain host) as [label|] eqn:Es.
      * simpl. unfold truthy_str.
        destruct (String.eqb host "") eqn:Ehost.
        { apply String.eqb_eq in Ehost as ->. vm_compute in Es. done. }
        simpl.
        destruct (String.eqb label "") eqn:El; simpl.
        { apply String.eqb_eq in El as ->.
          case_bool_decide; simpl; done. }
        repeat case_bool_decide; simpl; try done;
          try (exfalso; naive_solver).
        unfold truthy_str. by rewrite El.
      * simpl. by destruct (truthy_str host).
    + unfold host_subdomain. rewrite Hhost. done.
  - intros req Hp Hh. unfold Tenant.extractTenantIdentifier. rewrite Hp. done.
Qed.

Lemma extractTenantIdentifier_priority_witness :
  Tenant.extractTenantIdentifier
    (Tenant.mkRequest {[ "tenantSlug" := "acme" ]} {[ "x-tenant-id" := "other-co" ]}
                      None None None None None None None)
  = Some "acme".
Proof.
  apply (proj2 extractTenantIdentifier_priority); reflexivity.
Defined.

(** ** The organization hierarchy *)

Lemma getFullHierarchy_loop_chain rows o path :
  parent_chain rows o path →
  ∀ fuel hierarchy, length path ≤ fuel →
    Organization.getFullHierarchy_loop fuel rows hierarchy (Some o)
    = Some ((Organization.entry_of <$> reverse path) ++ hierarchy)%list.
Proof.
  induction 1 as [o Hroot|o pid p path Hpid Ht Hfind Hchain IH];
    intros fuel hierarchy Hfuel; simpl in Hfuel.
  - destruct fuel as [|fuel]; [lia|]. simpl. rewrite Hroot.
    by destruct fuel.
  - destruct fuel as [|fuel]; [lia|]. simpl. rewrite Hpid. simpl.
    rewrite Ht, Hfind, IH by lia.
    rewrite reverse_cons, fmap_app, <-app_assoc. done.
Qed.

Lemma getFullHierarchy_loop_cycle fuel :
  ∀ hierarchy,
    Organization.getFullHierarchy_loop fuel cycle_rows hierarchy (Some cycle_a) = None
    ∧ Organization.getFullHierarchy_loop fuel cycle_rows hierarchy (Some cycle_b) = None.
Proof.
  induction fuel as [|fuel IH]; intros hierarchy; [done|].
  split.
  - change (Organization.getFullHierarchy_loop (S fuel) cycle_rows hierarchy (Some cycle_a))
      with (Organization.getFullHierarchy_loop fuel cycle_rows
              (Organization.entry_of cycle_a :: hierarchy) (Some cycle_b)).
    apply IH.
  - change (Organization.getFullHierarchy_loop (S fuel) cycle_rows hierarchy (Some cycle_b))
      with (Organization.getFullHierarchy_loop fuel cycle_rows
              (Organization.entry_of cycle_b :: hierarchy) (Some cycle_a)).
    apply IH.
Qed.

(** C4, refuted as stated: the walk of [getFullHierarchy] has no depth
    bound and no failure of its own.  On two organizations that name each
    other as parent it yields no result, whatever number of iterations it is
    allowed. *)
Lemma getFullHierarchy_cycle_no_result :
  ¬ ∃ fuel result,
      Organization.getFullHierarchy fuel cycle_rows cycle_a = Some result.
Proof.
  intros (fuel & result & H). unfold Organization.getFullHierarchy in H.
  by rewrite (proj1 (getFullHierarchy_loop_cycle fuel [])) in H.
Qed.

Lemma getFullHierarchy_loop_walk rows o path :
  upward_walk rows o path →
  ∀ fuel hierarchy, length path ≤ fuel →
    Organization.getFullHierarchy_loop fuel rows hierarchy (Some o)
    = Some ((Organization.entry_of <$> reverse path) ++ hierarchy)%list.
Proof.
  induction 1 as [o Hroot|o pid Hpid Ht Hfind|o pid p path Hpid Ht Hfind Hchain IH];
    intros fuel hierarchy Hfuel; simpl in Hfuel.
  - destruct fuel as [|fuel]; [lia|]. simpl. rewrite Hroot. by destruct fuel.
  - destruct fuel as [|fuel]; [lia|]. simpl. rewrite Hpid. simpl.
    rewrite Ht, Hfind. by destruct fuel.
  - destruct fuel as [|fuel]; [lia|]. simpl. rewrite Hpid. simpl.
    rewrite Ht, Hfind, IH by lia.
    rewrite reverse_cons, fmap_app, <-app_assoc. done.
Qed.

Lemma parent_chain_upward_walk rows o path :
  parent_chain rows o path → upward_walk rows o path.
Proof.
  induction 1 as [o Hroot|o pid p path Hpid Ht Hfind _ IH].
  - by apply walk_root.
  - by eapply walk_step.
Qed.

(** The loop ends only where the parent references end. *)
Lemma getFullHierarchy_loop_Some rows fuel :
  ∀ hierarchy o result,
    Organization.getFullHierarchy_loop fuel rows hierarchy (Some o) = Some result →
    ∃ path, upward_walk rows o path
            ∧ length path ≤ fuel
            ∧ result = ((Organization.entry_of <$> reverse path) ++ hierarchy)%list.
Proof.
  induction fuel as [|fuel IH]; intros hierarchy o result; [done|].
  simpl. destruct (truthy (Organization.parentId o)) eqn:Ht.
  - destruct (Organization.parentId o) as [pid|] eqn:Hpid; [|done]. simpl in *.
    destruct (Organization.findByPk rows pid) as [p|] eqn:Hfind.
    + intros (path & Hwalk & Hlen & ->)%IH. exists (o :: path).
      split; [by eapply walk_step|]. split; [simpl; lia|].
      by rewrite reverse_cons, fmap_app, <-app_assoc.
    + intros Hres. exists [o]. split; [by eapply walk_missing|].
      split; [simpl; lia|]. destruct fuel; by injection Hres as <-.
  - intros Hres. exists [o]. split; [by apply walk_root|].
    split; [simpl; lia|]. destruct fuel; by injection Hres as <-.
Qed.

Lemma upward_walk_parent rows o p path :
  upward_walk rows o path → parent_row rows o p →
  ∃ rest, path = o :: rest ∧ upward_walk rows p rest.
Proof.
  intros Hwalk (pid & Hpid & Ht & Hfind).
  destruct Hwalk as [o Hroot|o pid' Hpid' Ht' Hfind'|o pid' p' path Hpid' Ht' Hfind' Hwalk].
  - rewrite Hpid in Hroot. simpl in Hroot. congruence.
  - congruence.
  - exists path. split; [done|]. congruence.
Qed.

Lemma upward_walk_rtc rows o c :
  rtc (parent_row rows) o c →
  ∀ path, upward_walk rows o path → ∃ path', upward_walk rows c path'.
Proof.
  induction 1 as [o|o p c Hstep _ IH]; intros path Hwalk; [eauto|].
  destruct (upward_walk_parent _ _ _ _ Hwalk Hstep) as (rest & _ & Hrest). eauto.
Qed.

Lemma upward_walk_tc rows o c :
  tc (parent_row rows) o c →
  ∀ path, upward_walk rows o path →
    ∃ path', upward_walk rows c path' ∧ length path' < length path.
Proof.
  induction 1 as [o c Hstep|o p c Hstep _ IH]; intros path Hwalk.
  - destruct (upward_walk_parent _ _ _ _ Hwalk Hstep) as (rest & -> & Hrest).
    exists rest. split; [done|]. simpl. lia.
  - destruct (upward_walk_parent _ _ _ _ Hwalk Hstep) as (rest & -> & Hrest).
    destruct (IH rest Hrest) as (path' & Hwalk' & Hlen).
    exists path'. split; [done|]. simpl. lia.
Qed.

(** No walk starts on a cycle. *)
Lemma upward_walk_no_cycle rows c path :
  upward_walk rows c path → tc (parent_row rows) c c → False.
Proof.
  remember (length path) as n eqn:Hn. revert path Hn.
  induction (lt_wf n) as [n _ IH]. intros path -> Hwalk Hcycle.
  destruct (upward_walk_tc _ _ _ Hcycle path Hwalk) as (path' & Hwalk' & Hlen).
  exact (IH (length path') Hlen path' eq_refl Hwalk' Hcycle).
Qed.

(** C4, amended: when the parent references lead from the organization to
    one that has no parent, or whose parent is not stored, the walk ends
    after as many iterations as organizations are met and returns them
    outermost first, the organization itself last; on a well-formed chain
    that is the sequence from the root to the organization.  The walk has
    no depth bound and no failure of its own: it returns a result in those
    cases only, and when the parent references lead from the organization
    into a cycle it returns none, whatever number of iterations it is
    allowed. *)
Theorem getFullHierarchy_root_to_self rows o :
  (∀ path, upward_walk rows o path →
     ∀ fuel, length path ≤ fuel →
       Organization.getFullHierarchy fuel rows o
       = Some (Organization.entry_of <$> reverse path))
  ∧ (∀ path, parent_chain rows o path → upward_walk rows o path)
  ∧ (∀ fuel result,
       Organization.getFullHierarchy fuel rows o = Some result →
       ∃ path, upward_walk rows o path
               ∧ length path ≤ fuel
               ∧ result = Organization.entry_of <$> reverse path)
  ∧ (leads_to_cycle rows o →
     ∀ fuel, Organization.getFullHierarchy fuel rows o = None).
Proof.
  assert (∀ fuel result,
            Organization.getFullHierarchy fuel rows o = Some result →
            ∃ path, upward_walk rows o path
                    ∧ length path ≤ fuel
                    ∧ result = Organization.entry_of <$> reverse path) as Honly.
  { intros fuel result (path & Hwalk & Hlen & ->)%getFullHierarchy_loop_Some.
    exists path. by rewrite app_nil_r. }
  split; [|split; [|split; [done|]]].
  - intros path Hwalk fuel Hfuel. unfold Organization.getFullHierarchy.
    rewrite (getFullHierarchy_loop_walk rows o path Hwalk) by done.
    by rewrite app_nil_r.
  - apply parent_chain_upward_walk.
  - intros (c & Hreach & Hcycle) fuel.
    destruct (Organization.getFullHierarchy fuel rows o) as [result|] eqn:E; [|done].
    exfalso. destruct (Honly fuel result E) as (path & Hwalk & _).
    destruct (upward_walk_rtc _ _ _ Hreach path Hwalk) as (path' & Hwalk').
    exact (upward_walk_no_cycle _ _ _ Hwalk' Hcycle).
Qed.

Lemma getFullHierarchy_root_to_self_witness :
  Organization.getFullHierarchy 2 tree_rows tree_child
  = Some [Organization.entry_of tree_root; Organization.entry_of tree_child]
  ∧ ∀ fuel, Organization.getFullHierarchy fuel cycle_rows cycle_a = None.
Proof.
  split.
  - apply (proj1 (getFullHierarchy_root_to_self tree_rows tree_child)
             [tree_child; tree_root]).
    + eapply walk_step; [reflexivity..|]. by apply walk_root.
    + simpl. lia.
  - apply (proj2 (proj2 (proj2 (getFullHierarchy_root_to_self cycle_rows cycle_a)))).
    exists cycle_a. split; [apply rtc_refl|].
    apply (tc_l _ _ cycle_b).
    + exists "o-2". by repeat split.
    + apply tc_once. exists "o-1". by repeat split.
Defined.

Lemma isDescendantOf_loop_ancestor rows a o n :
  ancestor_within rows a o n →
  ∀ fuel, n ≤ fuel →
    Organization.isDescendantOf_loop fuel rows (Some o) (Some a) = Some true.
Proof.
  induction 1 as [o Hpid Ht|o pid p n Hpid Ht Hfind Hanc IH]; intros fuel Hfuel.
  - destruct fuel as [|fuel]; [lia|]. simpl. rewrite Hpid. simpl. rewrite Ht.
    by rewrite bool_decide_eq_true_2.
  - destruct fuel as [|fuel]; [lia|]. simpl. rewrite Hpid. simpl. rewrite Ht.
    case_bool_decide; [done|]. rewrite Hfind. apply IH. lia.
Qed.

(** C7: [validateHierarchy(parentId, childId)] answers [false] when the two
    identifiers are equal, when no organization is stored under [parentId],
    and when [childId] is met among the ancestors of [parentId]; the walk it
    makes for the last case ends. *)
Theorem validateHierarchy_rejects rows (parentId childId : string) :
  must_reject rows parentId childId →
  ∃ fuel0, ∀ fuel, fuel0 ≤ fuel →
    Organization.validateHierarchy fuel rows (Some parentId) (Some childId)
    = Some false.
Proof.
  unfold Organization.validateHierarchy.
  intros [->|[Hnone|(parent & n & Hfind & Hanc)]].
  - exists 0. intros fuel _. rewrite bool_decide_eq_true_2 by done.
    by rewrite !orb_true_r.
  - exists 0. intros fuel _. simpl. rewrite Hnone. by case_match.
  - exists n. intros fuel Hfuel. simpl. rewrite Hfind.
    unfold Organization.isDescendantOf.
    rewrite (isDescendantOf_loop_ancestor rows childId parent n Hanc) by done.
    by case_match.
Qed.

Lemma validateHierarchy_rejects_witness :
  ∃ fuel0, ∀ fuel, fuel0 ≤ fuel →
    Organization.validateHierarchy fuel tree_rows (Some "o-2") (Some "o-1") = Some false.
Proof.
  apply (validateHierarchy_rejects tree_rows "o-2" "o-1").
  right; right. exists tree_child, 1. split; [reflexivity|].
  apply ancestor_parent; reflexivity.
Defined.

(** ** Recomputing the permissions on a role change *)

Section merge.

Implicit Types (p merged out : permission_map) (acts : actions).

Lemma lookup_js_set_ne {A} (o : gmap string A) k k' v :
  k' ≠ k → js_set o k v !! k' = o !! k'.
Proof.
  intros Hne. unfold js_set. destruct (_ && _); [done|]. by rewrite lookup_insert_ne.
Qed.

Lemma lookup_js_set_eq {A} (o : gmap string A) k v :
  k ≠ "__proto__" ∨ is_Some (o !! k) → js_set o k v !! k = Some v.
Proof.
  intros H. unfold js_set.
  destruct (String.eqb k "__proto__") eqn:Ek; simpl; [|by rewrite lookup_insert_eq].
  apply String.eqb_eq in Ek. destruct H as [?|[x Hx]]; [done|].
  rewrite bool_decide_eq_false_2 by congruence. by rewrite lookup_insert_eq.
Qed.

Lemma lookup_js_set_same {A} (o : gmap string A) k k' v :
  o !! k' = Some v → js_set o k v !! k' = Some v.
Proof.
  intros H. destruct (decide (k' = k)) as [->|Hne].
  - apply lookup_js_set_eq. right. by eexists.
  - by rewrite lookup_js_set_ne.
Qed.

Lemma lookup_js_set_Some {A} (o : gmap string A) k k' v x :
  js_set o k v !! k' = Some x → o !! k' = Some x ∨ (k' = k ∧ x = v).
Proof.
  unfold js_set. destruct (_ && _); [by left|].
  destruct (decide (k' = k)) as [->|Hne].
  - rewrite lookup_insert_eq. intros [= <-]. by right.
  - rewrite lookup_insert_ne by done. by left.
Qed.

Lemma lookup_js_set_proto {A} (o : gmap string A) k v :
  o !! "__proto__" = None → js_set o k v !! "__proto__" = None.
Proof.
  intros H. unfold js_set.
  destruct (String.eqb k "__proto__") eqn:Ek; simpl.
  - apply String.eqb_eq in Ek as ->. by rewrite bool_decide_eq_true_2.
  - apply String.eqb_neq in Ek. by rewrite lookup_insert_ne.
Qed.

Lemma set_true_inv p resource action out :
  OrganizationUser.set_true p resource action = Some out →
  ∃ acts, p !! resource = Some acts
          ∧ out = <[resource := js_set acts action T]> p.
Proof.
  unfold OrganizationUser.set_true.
  destruct (js_get p resource) as [acts| |] eqn:E; [|done..].
  apply js_get_own in E. intros [= <-]. eauto.
Qed.

Lemma set_true_sets p resource action out :
  action ≠ "__proto__" →
  OrganizationUser.set_true p resource action = Some out →
  cell_true out resource action.
Proof.
  intros Ha (acts & Hp & ->)%set_true_inv. exists (js_set acts action T).
  rewrite lookup_insert_eq. split; [done|]. apply lookup_js_set_eq. by left.
Qed.

Lemma set_true_keeps p resource action out r a :
  OrganizationUser.set_true p resource action = Some out →
  cell_true p r a → cell_true out r a.
Proof.
  intros (acts & Hp & ->)%set_true_inv (acts' & Hr & Ha).
  destruct (decide (r = resource)) as [->|Hne].
  - exists (js_set acts action T). rewrite lookup_insert_eq. split; [done|].
    assert (acts' = acts) as -> by congruence.
    by apply lookup_js_set_same.
  - exists acts'. by rewrite lookup_insert_ne.
Qed.

Lemma set_true_keys p resource action out r :
  OrganizationUser.set_true p resource action = Some out →
  is_Some (out !! r) ↔ is_Some (p !! r).
Proof.
  intros (acts & Hp & ->)%set_true_inv.
  destruct (decide (r = resource)) as [->|Hne].
  - rewrite lookup_insert_eq, Hp. split; eauto.
  - by rewrite lookup_insert_ne.
Qed.

(** What the inner loop over the actions of one resource leaves behind. *)
Lemma merge_actions_spec resource acts merged out :
  map_fold (OrganizationUser.merge_action resource) (Some merged) acts = Some out →
  (∀ r a, cell_true merged r a → cell_true out r a)
  ∧ (∀ a, a ≠ "__proto__" → acts !! a = Some (CBool true) → cell_true out resource a)
  ∧ (∀ r, is_Some (out !! r) ↔ is_Some (merged !! r)).
Proof.
  revert out.
  apply (map_fold_weak_ind (λ acc (m : actions), ∀ out, acc = Some out →
    (∀ r a, cell_true merged r a → cell_true out r a)
    ∧ (∀ a, a ≠ "__proto__" → m !! a = Some (CBool true) → cell_true out resource a)
    ∧ (∀ r, is_Some (out !! r) ↔ is_Some (merged !! r)))).
  - intros out [= <-]. split; [done|]. split; [|done].
    intros a _. by rewrite lookup_empty.
  - intros action c m acc Hfresh IH out.
    unfold OrganizationUser.merge_action.
    destruct (strict_eq_true (Some c)) eqn:Hc.
    + destruct acc as [merged'|]; [|done]. simpl. intros Hset.
      destruct (IH merged' eq_refl) as (Hkeep & Hnew & Hkeys).
      split; [|split].
      * intros r a Hra. eapply set_true_keeps; eauto.
      * intros a Hproto. destruct (decide (a = action)) as [->|Hne].
        -- intros _. by eapply set_true_sets.
        -- rewrite lookup_insert_ne by done. intros Ha.
           eapply set_true_keeps; eauto.
      * intros r. rewrite (set_true_keys _ _ _ _ r Hset). apply Hkeys.
    + intros ->. destruct (IH out eq_refl) as (Hkeep & Hnew & Hkeys).
      split; [done|]. split; [|done].
      intros a Hproto. destruct (decide (a = action)) as [->|Hne].
      * rewrite lookup_insert_eq. intros [= ->]. done.
      * rewrite lookup_insert_ne by done. by apply Hnew.
Qed.

(** What [mergePermissions] returns: the defaults of the new role keep
    their keys and their [true] cells, and every [true] cell of the current
    map under a resource of the new defaults is [true] in the result,
    unless its action is [__proto__]. *)
Lemma mergePermissions_spec (rolePerms current : value) out :
  OrganizationUser.mergePermissions rolePerms current = Some out →
  (∀ r a, cell_true (own_props rolePerms) r a → cell_true out r a)
  ∧ (∀ r a, is_Some (own_props rolePerms !! r) → a ≠ "__proto__" →
            cell_true (own_props current) r a → cell_true out r a)
  ∧ (∀ r, is_Some (out !! r) ↔ is_Some (own_props rolePerms !! r)).
Proof.
  unfold OrganizationUser.mergePermissions.
  generalize (own_props rolePerms) as base, (own_props current) as cur.
  intros base cur. revert out.
  apply (map_fold_weak_ind (λ acc (m : permission_map), ∀ out, acc = Some out →
    (∀ r a, cell_true base r a → cell_true out r a)
    ∧ (∀ r a, is_Some (base !! r) → a ≠ "__proto__" → cell_true m r a → cell_true out r a)
    ∧ (∀ r, is_Some (out !! r) ↔ is_Some (base !! r)))).
  - intros out [= <-]. split; [done|]. split; [|done].
    intros r a _ _ (acts & Hr & _). by rewrite lookup_empty in Hr.
  - intros resource acts m acc Hfresh IH out.
    unfold OrganizationUser.merge_resource.
    destruct acc as [merged|]; [|done].
    destruct (IH merged eq_refl) as (Hkeep & Hnew & Hkeys).
    assert (∀ r a, r ≠ resource → cell_true (<[resource:=acts]> m) r a → cell_true m r a)
      as Hother.
    { intros r a Hne (acts' & Hr & Ha). rewrite lookup_insert_ne in Hr by done.
      by exists acts'. }
    destruct (js_get merged resource) as [acts0|n|] eqn:Hget.
    1,2: intros (Hkeep' & Hnew' & Hkeys')%merge_actions_spec;
      (split; [|split]);
      [ intros r a Hra; by apply Hkeep', Hkeep
      | intros r a Hr Hproto Hra; destruct (decide (r = resource)) as [->|Hne];
        [ destruct Hra as (acts' & Hl & Ha); rewrite lookup_insert_eq in Hl;
          injection Hl as <-; by apply Hnew'
        | apply Hkeep', Hnew; [done|done|by apply Hother] ]
      | intros r; rewrite Hkeys'; apply Hkeys ].
    intros [= <-]. split; [done|]. split; [|done].
    intros r a Hr Hproto Hra. destruct (decide (r = resource)) as [->|Hne].
    + apply Hkeys in Hr as [x Hx]. unfold js_get in Hget. by rewrite Hx in Hget.
    + apply Hnew; [done|done|by apply Hother].
Qed.

End merge.

Section role_change.

Implicit Types (m : OrganizationUser.t) (p out : permission_map).

Lemma hasPermission_stored m resource action :
  OrganizationUser.hasPermission m resource action = true
  ↔ cell_true (stored m) resource action.
Proof.
  unfold stored.
  destruct (OrganizationUser.permissions m) as [[p|b]|] eqn:Hp; simpl.
  - by apply hasPermission_cell_true.
  - unfold OrganizationUser.hasPermission. rewrite Hp. simpl.
    split; [by intros ?%builtin_permission_not_true|].
    intros (acts & Hr & _). by rewrite lookup_empty in Hr.
  - unfold OrganizationUser.hasPermission. rewrite Hp. simpl.
    rewrite resource_allows_true. setoid_rewrite js_get_own.
    unfold cell_true. done.
Qed.

(** Unless the map of the membership is itself a built-in, the answer of
    [hasPermission] is read off the stored map. *)
Lemma hasPermission_plain m resource action :
  (∀ b, m.(OrganizationUser.permissions) ≠ Some (VBuiltin b)) →
  OrganizationUser.hasPermission m resource action
  = OrganizationUser.resource_allows (js_get (stored m) resource) action.
Proof.
  intros Hb. unfold OrganizationUser.hasPermission, stored.
  destruct (OrganizationUser.permissions m) as [[p|b]|]; simpl; try done.
  by destruct (Hb b).
Qed.

Lemma merge_actions_total resource acts merged :
  is_Some (merged !! resource) →
  ∃ out, map_fold (OrganizationUser.merge_action resource) (Some merged) acts = Some out.
Proof.
  intros Hown.
  cut (∃ out, map_fold (OrganizationUser.merge_action resource) (Some merged) acts = Some out
              ∧ is_Some (out !! resource)); [naive_solver|].
  apply (map_fold_weak_ind (λ acc (_ : actions),
    ∃ out, acc = Some out ∧ is_Some (out !! resource))).
  - eauto.
  - intros action c _ acc _ (out & -> & [x Hx]).
    unfold OrganizationUser.merge_action.
    destruct (strict_eq_true (Some c)); [|eauto]. simpl.
    unfold OrganizationUser.set_true, js_get. rewrite Hx.
    eexists. split; [done|]. rewrite lookup_insert_eq. eauto.
Qed.

Lemma mergePermissions_total (rolePerms current : value) :
  (∀ k, k ∈ Object_prototype_keys → own_props current !! k = None) →
  ∃ out, OrganizationUser.mergePermissions rolePerms current = Some out.
Proof.
  unfold OrganizationUser.mergePermissions.
  generalize (own_props rolePerms) as base, (own_props current) as cur.
  intros base cur.
  apply (map_fold_weak_ind (λ acc (m : permission_map),
    (∀ k, k ∈ Object_prototype_keys → m !! k = None) → ∃ out, acc = Some out)).
  - eauto.
  - intros resource acts m acc Hfresh IH Hplain.
    destruct IH as (merged & ->).
    { intros k Hk. specialize (Hplain k Hk).
      destruct (decide (k = resource)) as [->|Hne]; [done|].
      by rewrite lookup_insert_ne in Hplain. }
    unfold OrganizationUser.merge_resource, js_get.
    destruct (merged !! resource) as [acts0|] eqn:Hown.
    + apply merge_actions_total. by rewrite Hown.
    + rewrite bool_decide_eq_false_2; [eauto|].
      intros Hk. specialize (Hplain resource Hk). by rewrite lookup_insert_eq in Hplain.
Qed.

(** A role change, seen from the permission checks: the new role is
    stored; the result grants what the new role grants by default, and
    what the membership was granted before on any resource of the new
    defaults. *)
Lemma updateRole_spec m newRole m' (t : permission_map) :
  newRole ≠ m.(OrganizationUser.role) →
  getRolePermissions newRole = VObj t →
  OrganizationUser.updateRole m newRole = Some m' →
  m'.(OrganizationUser.role) = newRole
  ∧ (∀ r a, cell_true t r a → cell_true (stored m') r a)
  ∧ (∀ r a, is_Some (t !! r) → a ≠ "__proto__" →
            cell_true (stored m) r a → cell_true (stored m') r a)
  ∧ (∀ r, is_Some (stored m' !! r) ↔ is_Some (t !! r)).
Proof.
  intros Hne Ht. unfold OrganizationUser.updateRole, OrganizationUser.beforeUpdate.
  simpl. rewrite bool_decide_eq_true_2 by done. rewrite Ht.
  destruct (OrganizationUser.mergePermissions _ _) as [out|] eqn:Hm; [|done].
  simpl. intros [= <-]. apply mergePermissions_spec in Hm as (H1 & H2 & H3).
  done.
Qed.

Lemma updateRole_total m newRole :
  plain_keys m → ∃ m', OrganizationUser.updateRole m newRole = Some m'.
Proof.
  intros Hplain. unfold OrganizationUser.updateRole, OrganizationUser.beforeUpdate.
  simpl. case_bool_decide; [|eauto].
  destruct (mergePermissions_total (getRolePermissions newRole)
              (default (VObj ∅) (OrganizationUser.permissions m)) Hplain) as (out & ->).
  simpl. eauto.
Qed.

Lemma stored_set_permissions m p :
  stored (OrganizationUser.set_permissions m (Some (VObj p))) = p.
Proof. reflexivity. Qed.

(** A grant, seen from the permission checks. *)
Lemma grantPermission_spec m resource action m' :
  OrganizationUser.grantPermission m resource action = Some m' →
  m'.(OrganizationUser.role) = m.(OrganizationUser.role)
  ∧ (action ≠ "__proto__" → cell_true (stored m') resource action)
  ∧ (∀ r a, cell_true (stored m) r a → cell_true (stored m') r a)
  ∧ (∀ r, r ≠ resource → stored m' !! r = stored m !! r).
Proof.
  unfold OrganizationUser.grantPermission. fold (stored m).
  set (p0 := match js_get (stored m) resource with
             | Undefined => <[resource:=∅]> (stored m)
             | _ => stored m
             end).
  destruct (OrganizationUser.set_true p0 resource action) as [p1|] eqn:Hset; [|done].
  simpl. intros [= <-]. split; [done|]. rewrite !stored_set_permissions.
  assert (∀ r a, cell_true (stored m) r a → cell_true p0 r a) as Hp0.
  { intros r a (acts & Hr & Ha). unfold p0, js_get.
    destruct (stored m !! resource) eqn:E; [by exists acts|].
    case_bool_decide; [by exists acts|].
    exists acts. rewrite lookup_insert_ne; [done|]. intros <-. congruence. }
  assert (∀ r, r ≠ resource → p0 !! r = stored m !! r) as Hp0'.
  { intros r Hne. unfold p0. repeat case_match; try done. by rewrite lookup_insert_ne. }
  split; [intros Ha; by eapply set_true_sets|]. split.
  - intros r a Hra. eapply set_true_keeps; eauto.
  - intros r Hne. apply set_true_inv in Hset as (acts & _ & ->).
    rewrite lookup_insert_ne by done. by apply Hp0'.
Qed.

Lemma grantPermission_total m resource action :
  is_Some (stored m !! resource) →
  ∃ m', OrganizationUser.grantPermission m resource action = Some m'.
Proof.
  intros [acts Hr]. unfold OrganizationUser.grantPermission. fold (stored m).
  unfold js_get at 1. rewrite Hr.
  unfold OrganizationUser.set_true, js_get. rewrite Hr. simpl. eauto.
Qed.

End role_change.

Lemma table_keys_plain (t : permission_map) (r : role) k :
  t = default_table r → k ∈ Object_prototype_keys → t !! k = None.
Proof.
  intros -> Hk. unfold Object_prototype_keys in Hk.
  repeat (apply elem_of_cons in Hk as [->|Hk]; [by destruct r|]).
  by apply elem_of_nil in Hk.
Qed.

(** C1, refuted as stated: the membership [fresh_viewer] is a [viewer]; it
    is made [manager], granted [reports.export] and made [viewer] again.
    At the end [reports.export] is [true], and [reports.write] is [true]
    too, where the statement has [false]. *)
Lemma role_change_write_not_reverted :
  fresh_viewer.(OrganizationUser.role) = "viewer"
  ∧ fresh_viewer.(OrganizationUser.permissions) = Some (VObj viewer_table)
  ∧ ∃ m',
      viewer_manager_viewer fresh_viewer = Some m'
      ∧ OrganizationUser.hasPermission m' "reports" "export" = true
      ∧ OrganizationUser.hasPermission m' "reports" "write" = true
      ∧ ¬ (OrganizationUser.hasPermission m' "reports" "export" = true
           ∧ OrganizationUser.hasPermission m' "reports" "write" = false).
Proof.
  split; [reflexivity|]. split; [vm_compute; reflexivity|].
  destruct (viewer_manager_viewer fresh_viewer) as [m'|] eqn:E;
    [|vm_compute in E; discriminate].
  exists m'. split; [reflexivity|].
  vm_compute in E. injection E as <-.
  split; [vm_compute; reflexivity|]. split; [vm_compute; reflexivity|].
  intros [_ Hw]. vm_compute in Hw. discriminate.
Qed.

(** C1, amended: after the role went from [viewer] to [manager], the grant
    [reports.export] was made, and the role went back to [viewer], the
    recomputed map has [reports.export] equal to [true] and [reports.write]
    equal to [true] as well: the recompute starts from the defaults of the
    new role and re-applies every [true] cell of the previous map under a
    resource of the new defaults, and [reports.write] was [true] in the map
    of the manager.  The three steps do go through when no resource key of
    the stored map is the name of an inherited property. *)
Theorem role_change_keeps_true_cells (m : OrganizationUser.t) :
  m.(OrganizationUser.role) = "viewer" →
  (∀ m', viewer_manager_viewer m = Some m' →
     OrganizationUser.hasPermission m' "reports" "export" = true
     ∧ OrganizationUser.hasPermission m' "reports" "write" = true)
  ∧ (plain_keys m → ∃ m', viewer_manager_viewer m = Some m').
Proof.
  intros Hrole. unfold viewer_manager_viewer. split.
  - intros m3.
    destruct (OrganizationUser.updateRole m "manager") as [m1|] eqn:E1; [|done].
    simpl.
    destruct (OrganizationUser.grantPermission m1 "reports" "export") as [m2|] eqn:E2;
      [|done].
    simpl. intros E3.
    apply (updateRole_spec m "manager" m1 (default_table manager)) in E1
      as (Hr1 & Hd1 & _ & _); [|by rewrite Hrole|reflexivity].
    apply grantPermission_spec in E2 as (Hr2 & Hset2 & Hkeep2 & _).
    apply (updateRole_spec m2 "viewer" m3 (default_table viewer)) in E3
      as (_ & _ & Hkeep3 & _); [|by rewrite Hr2, Hr1|reflexivity].
    rewrite !hasPermission_stored. split.
    + apply Hkeep3; [by eexists|done|by apply Hset2].
    + apply Hkeep3; [by eexists|done|]. apply Hkeep2, Hd1.
      apply true_cells_spec. apply (bool_decide_unpack _). vm_compute. exact I.
  - intros Hplain.
    destruct (updateRole_total m "manager" Hplain) as (m1 & E1). rewrite E1. simpl.
    apply (updateRole_spec m "manager" m1 (default_table manager)) in E1
      as (Hr1 & _ & _ & Hkeys1); [|by rewrite Hrole|reflexivity].
    destruct (grantPermission_total m1 "reports" "export") as (m2 & E2).
    { apply Hkeys1. by eexists. }
    rewrite E2. simpl.
    apply grantPermission_spec in E2 as (_ & _ & _ & Hother).
    apply updateRole_total. intros k Hk.
    destruct (decide (k = "reports")) as [->|Hne].
    { exfalso. revert Hk. unfold Object_prototype_keys. set_solver. }
    rewrite Hother by done. fold (stored m1).
    apply eq_None_not_Some. rewrite Hkeys1.
    rewrite (table_keys_plain _ manager k eq_refl Hk). by intros [? ?].
Qed.

Lemma role_change_keeps_true_cells_witness :
  ∃ m',
    viewer_manager_viewer fresh_viewer = Some m'
    ∧ OrganizationUser.hasPermission m' "reports" "export" = true
    ∧ OrganizationUser.hasPermission m' "reports" "write" = true.
Proof.
  destruct (role_change_keeps_true_cells fresh_viewer eq_refl) as [Hperm Htotal].
  destruct Htotal as (m' & E).
  - intros k Hk. apply (table_keys_plain _ viewer k eq_refl Hk).
  - exists m'. split; [done|]. by apply Hperm.
Defined.

(** ** Granting and revoking *)

Lemma js_get_plain {A} (o : gmap string A) k :
  k ∉ Object_prototype_keys →
  js_get o k = match o !! k with Some v => Own v | None => Undefined end.
Proof.
  intros Hk. unfold js_get. destruct (o !! k); [done|].
  by rewrite bool_decide_eq_false_2.
Qed.

Lemma resource_allows_own (acts : actions) a :
  OrganizationUser.resource_allows (Own acts) a = Returns (strict_eq_true (acts !! a)).
Proof.
  unfold OrganizationUser.resource_allows, js_get.
  destruct (acts !! a); [done|]. by case_bool_decide.
Qed.

(** The answer for a resource depends on the entry of the map for that
    resource only. *)
Lemma resource_allows_entry (p p' : permission_map) r a :
  p !! r = p' !! r →
  OrganizationUser.resource_allows (js_get p r) a
  = OrganizationUser.resource_allows (js_get p' r) a.
Proof. intros H. unfold js_get. by rewrite H. Qed.

Lemma strict_eq_true_js_set_F (acts : actions) a :
  strict_eq_true (js_set acts a F !! a) = false.
Proof.
  destruct (js_set acts a F !! a) as [x|] eqn:E; [|done].
  unfold js_set in E. destruct (String.eqb a "__proto__" && _) eqn:Eb.
  - apply andb_true_iff in Eb as [_ Hn]. apply bool_decide_eq_true in Hn. congruence.
  - rewrite lookup_insert_eq in E. by injection E as <-.
Qed.

Lemma grantPermission_stored (m : OrganizationUser.t) (resource action : string) :
  resource ∉ Object_prototype_keys →
  ∃ m',
    OrganizationUser.grantPermission m resource action = Some m'
    ∧ (∀ b, m'.(OrganizationUser.permissions) ≠ Some (VBuiltin b))
    ∧ stored m'
      = <[resource := js_set (default ∅ (stored m !! resource)) action T]> (stored m).
Proof.
  intros Hk. unfold OrganizationUser.grantPermission. fold (stored m).
  rewrite js_get_plain by done. unfold OrganizationUser.set_true.
  destruct (stored m !! resource) as [acts|] eqn:E.
  - rewrite js_get_plain, E by done. eexists. split; [done|]. split; [done|].
    by rewrite stored_set_permissions.
  - rewrite js_get_plain, lookup_insert_eq by done. eexists. split; [done|].
    split; [done|]. rewrite stored_set_permissions. by rewrite insert_insert_eq.
Qed.

Lemma grantPermission_answers (m : OrganizationUser.t) (resource action : string) :
  resource ∉ Object_prototype_keys →
  ∃ m',
    OrganizationUser.grantPermission m resource action = Some m'
    ∧ m'.(OrganizationUser.role) = m.(OrganizationUser.role)
    ∧ (action ≠ "__proto__" →
       OrganizationUser.hasPermission m' resource action = true)
    ∧ (∀ r a, (r, a) ≠ (resource, action) →
         OrganizationUser.hasPermission m' r a
         = OrganizationUser.resource_allows (js_get (stored m) r) a)
    ∧ ((∀ b, m.(OrganizationUser.permissions) ≠ Some (VBuiltin b)) →
       ∀ r a, (r, a) ≠ (resource, action) →
         OrganizationUser.hasPermission m' r a = OrganizationUser.hasPermission m r a).
Proof.
  intros Hk.
  destruct (grantPermission_stored m resource action Hk) as (m' & Hg & Hb' & Hst).
  exists m'. split; [done|].
  pose proof (grantPermission_spec m resource action m' Hg) as (Hrole & Hset & _ & Hoth).
  split; [done|]. split.
  { intros Ha. by apply hasPermission_stored, Hset. }
  assert (∀ r a, (r, a) ≠ (resource, action) →
            OrganizationUser.hasPermission m' r a
            = OrganizationUser.resource_allows (js_get (stored m) r) a) as Hrest.
  { intros r a Hne. rewrite hasPermission_plain by done.
    destruct (decide (r = resource)) as [->|Hr]; [|by apply resource_allows_entry, Hoth].
    assert (a ≠ action) as Ha by congruence.
    rewrite Hst. rewrite !js_get_plain, lookup_insert_eq by done.
    rewrite resource_allows_own, lookup_js_set_ne by done.
    destruct (stored m !! resource) as [acts|].
    - by rewrite resource_allows_own.
    - unfold default. by rewrite lookup_empty. }
  split; [done|].
  intros Hb r a Hne. rewrite (hasPermission_plain m) by done. by apply Hrest.
Qed.

(** X1: a grant on a resource whose name is not that of an inherited
    property goes through and leaves the role alone.  Unless the action is
    [__proto__], for which the assignment runs the inherited setter and
    creates no property, [hasPermission] holds for the granted pair
    afterwards.  Every other pair is answered from the own properties that
    the map had before; unless the map of the membership was a built-in,
    that is the answer it had before. *)
Theorem grantPermission_grants (m : OrganizationUser.t) (resource action : string) :
  resource ∉ Object_prototype_keys →
  ∃ m',
    OrganizationUser.grantPermission m resource action = Some m'
    ∧ m'.(OrganizationUser.role) = m.(OrganizationUser.role)
    ∧ (action ≠ "__proto__" →
       OrganizationUser.hasPermission m' resource action = true)
    ∧ (∀ r a, (r, a) ≠ (resource, action) →
         OrganizationUser.hasPermission m' r a
         = OrganizationUser.resource_allows (js_get (stored m) r) a)
    ∧ ((∀ b, m.(OrganizationUser.permissions) ≠ Some (VBuiltin b)) →
       ∀ r a, (r, a) ≠ (resource, action) →
         OrganizationUser.hasPermission m' r a = OrganizationUser.hasPermission m r a).
Proof. apply grantPermission_answers. Qed.

Lemma grantPermission_grants_witness :
  ∃ m',
    OrganizationUser.grantPermission fresh_viewer "billing" "read" = Some m'
    ∧ OrganizationUser.hasPermission m' "billing" "read" = true
    ∧ OrganizationUser.hasPermission m' "billing" "write"
      = OrganizationUser.hasPermission fresh_viewer "billing" "write".
Proof.
  destruct (grantPermission_grants fresh_viewer "billing" "read")
    as (m' & H & _ & Hp & _ & Hoth).
  - unfold Object_prototype_keys. set_solver.
  - exists m'. split; [done|]. split; [by apply Hp|].
    apply Hoth; [done|congruence].
Defined.

Lemma revokePermission_spec (m : OrganizationUser.t) (resource action : string) :
  resource ∉ Object_prototype_keys →
  ∃ m',
    OrganizationUser.revokePermission m resource action = Some m'
    ∧ m'.(OrganizationUser.role) = m.(OrganizationUser.role)
    ∧ OrganizationUser.hasPermission m' resource action = false
    ∧ (∀ r a, (r, a) ≠ (resource, action) →
         OrganizationUser.hasPermission m' r a
         = OrganizationUser.resource_allows (js_get (stored m) r) a)
    ∧ ((∀ b, m.(OrganizationUser.permissions) ≠ Some (VBuiltin b)) →
       ∀ r a, (r, a) ≠ (resource, action) →
         OrganizationUser.hasPermission m' r a = OrganizationUser.hasPermission m r a)
    ∧ (stored m !! resource = None → stored m' = stored m).
Proof.
  intros Hk.
  enough (∃ m',
    OrganizationUser.revokePermission m resource action = Some m'
    ∧ m'.(OrganizationUser.role) = m.(OrganizationUser.role)
    ∧ OrganizationUser.hasPermission m' resource action = false
    ∧ (∀ r a, (r, a) ≠ (resource, action) →
         OrganizationUser.hasPermission m' r a
         = OrganizationUser.resource_allows (js_get (stored m) r) a)
    ∧ (stored m !! resource = None → stored m' = stored m))
    as (m' & H1 & H2 & H3 & H4 & H5).
  { exists m'. repeat (split; [done|]). split; [|done].
    intros Hb r a Hne. rewrite (hasPermission_plain m) by done. by apply H4. }
  unfold OrganizationUser.revokePermission. fold (stored m).
  rewrite js_get_plain by done.
  destruct (stored m !! resource) as [acts|] eqn:E.
  - eexists. split; [done|]. split; [done|]. split; [|split; [|done]].
    + rewrite hasPermission_plain by done. rewrite stored_set_permissions.
      rewrite js_get_plain, lookup_insert_eq by done.
      by rewrite resource_allows_own, strict_eq_true_js_set_F.
    + intros r a Hne. rewrite hasPermission_plain by done.
      rewrite stored_set_permissions.
      destruct (decide (r = resource)) as [->|Hr].
      * assert (a ≠ action) as Ha by congruence.
        rewrite !js_get_plain, lookup_insert_eq, E by done.
        rewrite !resource_allows_own. by rewrite lookup_js_set_ne.
      * apply resource_allows_entry. by rewrite lookup_insert_ne.
  - eexists. split; [done|]. split; [done|]. split; [|split; [|done]].
    + rewrite hasPermission_plain by done. rewrite stored_set_permissions.
      by rewrite js_get_plain, E.
    + intros r a _. rewrite hasPermission_plain by done.
      by rewrite stored_set_permissions.
Qed.

(** X2: a revocation on a resource whose name is not that of an inherited
    property goes through; afterwards [hasPermission] fails for the revoked
    pair.  Every other pair is answered from the own properties that the
    map had before; unless the map of the membership was a built-in, that is
    the answer it had before.  When the map has no entry for the resource,
    none is created. *)
Theorem revokePermission_revokes (m : OrganizationUser.t) (resource action : string) :
  resource ∉ Object_prototype_keys →
  ∃ m',
    OrganizationUser.revokePermission m resource action = Some m'
    ∧ m'.(OrganizationUser.role) = m.(OrganizationUser.role)
    ∧ OrganizationUser.hasPermission m' resource action = false
    ∧ (∀ r a, (r, a) ≠ (resource, action) →
         OrganizationUser.hasPermission m' r a
         = OrganizationUser.resource_allows (js_get (stored m) r) a)
    ∧ ((∀ b, m.(OrganizationUser.permissions) ≠ Some (VBuiltin b)) →
       ∀ r a, (r, a) ≠ (resource, action) →
         OrganizationUser.hasPermission m' r a = OrganizationUser.hasPermission m r a)
    ∧ (stored m !! resource = None → stored m' = stored m).
Proof. apply revokePermission_spec. Qed.

Lemma revokePermission_revokes_witness :
  ∃ m',
    OrganizationUser.revokePermission fresh_viewer "reports" "read" = Some m'
    ∧ OrganizationUser.hasPermission m' "reports" "read" = false
    ∧ OrganizationUser.hasPermission m' "users" "read"
      = OrganizationUser.hasPermission fresh_viewer "users" "read".
Proof.
  destruct (revokePermission_revokes fresh_viewer "reports" "read")
    as (m' & H & _ & Hp & _ & Hoth & _).
  - unfold Object_prototype_keys. set_solver.
  - exists m'. split; [done|]. split; [done|]. apply Hoth; [done|congruence].
Defined.

(** Why the map must not be a built-in for the last comparison: created
    with the role [constructor] and [permissions: {}], a membership holds
    the [Object] function as its map.  A grant or a revocation replaces it
    by a plain object, and a check of the resource [caller], which threw
    before, answers [false] afterwards. *)
Lemma revokePermission_builtin_map :
  ∃ m m',
    OrganizationUser.create
      (OrganizationUser.mkAttributes "m-3" "u-3" "o-1" (Some "constructor")
         (Some (Some (VObj ∅))) None)
    = inr m
    ∧ m.(OrganizationUser.permissions) = Some (VBuiltin "constructor")
    ∧ OrganizationUser.revokePermission m "users" "read" = Some m'
    ∧ OrganizationUser.hasPermission m "caller" "read" = poison_pill
    ∧ OrganizationUser.hasPermission m' "caller" "read" = false.
Proof.
  eexists _, _. split; [reflexivity|]. split; [reflexivity|].
  split; [reflexivity|]. split; reflexivity.
Qed.

(** ** Role changes, exactly *)

Lemma getRolePermissions_table (k : string) (t : permission_map) :
  getRolePermissions k = VObj t → ∃ r : role, t = default_table r.
Proof.
  destruct (decide (k ∈ role_values)) as [Hk|Hk].
  - assert (∃ r, k = role_name r) as [r ->].
    { unfold role_values in Hk. apply list_elem_of_fmap in Hk as (r & -> & _). eauto. }
    rewrite getRolePermissions_role. intros [= <-]. eauto.
  - destruct (decide (k ∈ Object_prototype_keys)) as [Hp|Hp].
    + by rewrite getRolePermissions_inherited.
    + rewrite getRolePermissions_fallback by done. intros [= <-]. by exists guest.
Qed.

(** No action map of a default table has an own property [__proto__]. *)
Lemma default_table_no_proto (r : role) (resource : string) (acts : actions) :
  default_table r !! resource = Some acts → acts !! "__proto__" = None.
Proof.
  assert (map_Forall (λ _ (acts : actions), acts !! "__proto__" = None)
            (default_table r)) as H.
  { apply (bool_decide_unpack _). by destruct r; vm_compute. }
  apply H.
Qed.

Lemma set_true_only (p out : permission_map) resource action :
  (∀ r acts, p !! r = Some acts → acts !! "__proto__" = None) →
  OrganizationUser.set_true p resource action = Some out →
  (∀ r acts, out !! r = Some acts → acts !! "__proto__" = None)
  ∧ ∀ r a, cell_true out r a →
      cell_true p r a ∨ (r = resource ∧ a = action ∧ a ≠ "__proto__").
Proof.
  intros Hno (acts & Hp & ->)%set_true_inv. split.
  - intros r acts'. destruct (decide (r = resource)) as [->|Hne].
    + rewrite lookup_insert_eq. intros [= <-]. apply lookup_js_set_proto. eauto.
    + rewrite lookup_insert_ne by done. apply Hno.
  - intros r a (acts' & Hr & Ha).
    destruct (decide (r = resource)) as [->|Hne].
    + rewrite lookup_insert_eq in Hr. injection Hr as <-.
      destruct (lookup_js_set_Some _ _ _ _ _ Ha) as [Hold|[-> _]].
      * left. by exists acts.
      * right. split; [done|]. split; [done|]. intros ->.
        rewrite lookup_js_set_proto in Ha by eauto. done.
    + rewrite lookup_insert_ne in Hr by done. left. by exists acts'.
Qed.

Lemma merge_actions_only resource (acts : actions) (merged out : permission_map) :
  (∀ r acts, merged !! r = Some acts → acts !! "__proto__" = None) →
  map_fold (OrganizationUser.merge_action resource) (Some merged) acts = Some out →
  (∀ r acts, out !! r = Some acts → acts !! "__proto__" = None)
  ∧ ∀ r a, cell_true out r a →
    cell_true merged r a
    ∨ (r = resource ∧ a ≠ "__proto__" ∧ acts !! a = Some (CBool true)
       ∧ is_Some (merged !! resource)).
Proof.
  intros Hno. revert out.
  enough (∀ out,
    map_fold (OrganizationUser.merge_action resource) (Some merged) acts = Some out →
    (∀ r, is_Some (out !! r) ↔ is_Some (merged !! r))
    ∧ (∀ r acts, out !! r = Some acts → acts !! "__proto__" = None)
    ∧ ∀ r a, cell_true out r a →
        cell_true merged r a
        ∨ (r = resource ∧ a ≠ "__proto__" ∧ acts !! a = Some (CBool true)
           ∧ is_Some (merged !! resource))) as H.
  { intros out Hout. destruct (H out Hout) as (_ & ? & ?). done. }
  apply (map_fold_weak_ind (λ acc (m : actions), ∀ out, acc = Some out →
    (∀ r, is_Some (out !! r) ↔ is_Some (merged !! r))
    ∧ (∀ r acts, out !! r = Some acts → acts !! "__proto__" = None)
    ∧ ∀ r a, cell_true out r a →
        cell_true merged r a
        ∨ (r = resource ∧ a ≠ "__proto__" ∧ m !! a = Some (CBool true)
           ∧ is_Some (merged !! resource)))).
  - intros out [= <-]. split; [done|]. split; [done|]. intros r a H. by left.
  - intros action c m acc Hfresh IH out.
    unfold OrganizationUser.merge_action.
    destruct (strict_eq_true (Some c)) eqn:Hc.
    + destruct acc as [merged'|]; [|done]. simpl. intros Hset.
      destruct (IH merged' eq_refl) as (Hkeys & Hno' & Honly).
      apply strict_eq_true_Some in Hc as ->.
      destruct (set_true_only _ _ _ _ Hno' Hset) as (Hno'' & Hset_only).
      split.
      { intros r. rewrite (set_true_keys _ _ _ _ r Hset). apply Hkeys. }
      split; [done|].
      intros r a Hra.
      destruct (Hset_only r a Hra) as [Hold|(-> & -> & Hnp)].
      * destruct (Honly r a Hold) as [?|(-> & Hnp & Hm & Hs)]; [by left|right].
        split; [done|]. split; [done|]. split; [|done].
        rewrite lookup_insert_ne; [done|]. intros <-. congruence.
      * right. split; [done|]. split; [done|]. rewrite lookup_insert_eq.
        split; [done|].
        apply Hkeys. apply set_true_inv in Hset as (? & Hp & _). by eexists.
    + intros ->. destruct (IH out eq_refl) as (Hkeys & Hno' & Honly).
      split; [done|]. split; [done|]. intros r a Hra.
      destruct (Honly r a Hra) as [?|(-> & Hnp & Hm & Hs)]; [by left|right].
      split; [done|]. split; [done|]. split; [|done].
      rewrite lookup_insert_ne; [done|]. intros <-. congruence.
Qed.

Lemma mergePermissions_only (rolePerms current : value) (out : permission_map) :
  (∀ r acts, own_props rolePerms !! r = Some acts → acts !! "__proto__" = None) →
  OrganizationUser.mergePermissions rolePerms current = Some out →
  ∀ r a, cell_true out r a →
    cell_true (own_props rolePerms) r a
    ∨ (is_Some (own_props rolePerms !! r) ∧ a ≠ "__proto__"
       ∧ cell_true (own_props current) r a).
Proof.
  unfold OrganizationUser.mergePermissions.
  generalize (own_props rolePerms) as base, (own_props current) as cur.
  intros base cur Hno. revert out.
  enough (∀ out,
    map_fold OrganizationUser.merge_resource (Some base) cur = Some out →
    (∀ r, is_Some (out !! r) ↔ is_Some (base !! r))
    ∧ (∀ r acts, out !! r = Some acts → acts !! "__proto__" = None)
    ∧ ∀ r a, cell_true out r a →
        cell_true base r a ∨ (is_Some (base !! r) ∧ a ≠ "__proto__" ∧ cell_true cur r a))
    as H.
  { intros out Hout. destruct (H out Hout) as (_ & _ & ?). done. }
  apply (map_fold_weak_ind (λ acc (m : permission_map), ∀ out, acc = Some out →
    (∀ r, is_Some (out !! r) ↔ is_Some (base !! r))
    ∧ (∀ r acts, out !! r = Some acts → acts !! "__proto__" = None)
    ∧ ∀ r a, cell_true out r a →
        cell_true base r a ∨ (is_Some (base !! r) ∧ a ≠ "__proto__" ∧ cell_true m r a))).
  - intros out [= <-]. split; [done|]. split; [done|]. intros r a H. by left.
  - intros resource acts m acc Hfresh IH out.
    unfold OrganizationUser.merge_resource.
    destruct acc as [merged|]; [|done].
    destruct (IH merged eq_refl) as (Hkeys & Hno' & Honly).
    assert (∀ r a, cell_true m r a → cell_true (<[resource:=acts]> m) r a) as Hup.
    { intros r a (acts' & Hr & Ha). exists acts'. split; [|done].
      rewrite lookup_insert_ne; [done|]. intros <-. congruence. }
    assert (∀ out, map_fold (OrganizationUser.merge_action resource) (Some merged) acts
                   = Some out →
      (∀ r, is_Some (out !! r) ↔ is_Some (base !! r))
      ∧ (∀ r acts, out !! r = Some acts → acts !! "__proto__" = None)
      ∧ ∀ r a, cell_true out r a →
          cell_true base r a
          ∨ (is_Some (base !! r) ∧ a ≠ "__proto__"
             ∧ cell_true (<[resource:=acts]> m) r a)) as Hinner.
    { intros out' Hfold.
      destruct (merge_actions_only _ _ _ _ Hno' Hfold) as (Hno'' & Hact).
      split.
      - intros r. destruct (merge_actions_spec _ _ _ _ Hfold) as (_ & _ & Hk).
        rewrite Hk. apply Hkeys.
      - split; [done|]. intros r a Hra.
        destruct (Hact r a Hra) as [Hold|(-> & Hnp & Ha & Hs)].
        + destruct (Honly r a Hold) as [?|(? & ? & ?)]; [by left|right].
          split; [done|]. split; [done|]. by apply Hup.
        + right. split; [by apply Hkeys|]. split; [done|]. exists acts.
          by rewrite lookup_insert_eq. }
    destruct (js_get merged resource) as [acts0|n|] eqn:Hget; [by apply Hinner..|].
    intros [= <-]. split; [done|]. split; [done|]. intros r a Hra.
    destruct (Honly r a Hra) as [?|(? & ? & ?)]; [by left|right].
    split; [done|]. split; [done|]. by apply Hup.
Qed.

(** X3: what a role change leaves in the permission map.  After the role
    was changed to a role value with default table [t], [hasPermission]
    holds for a pair exactly when [t] grants it, or when the resource is one
    of [t], the action is not [__proto__], and [hasPermission] held for the
    pair before the change.  So a change to a less privileged role takes no
    permission away, entries for resources outside [t] are dropped, and a
    stored cell [__proto__] is not carried over: the assignment that would
    carry it runs the inherited setter of the fresh action map.  The change
    goes through when no resource key of the stored map is the name of an
    inherited property. *)
Theorem updateRole_permissions (m : OrganizationUser.t) (newRole : string)
    (t : permission_map) :
  newRole ≠ m.(OrganizationUser.role) →
  getRolePermissions newRole = VObj t →
  (∀ m', OrganizationUser.updateRole m newRole = Some m' →
     m'.(OrganizationUser.role) = newRole
     ∧ (∀ r, is_Some (stored m' !! r) ↔ is_Some (t !! r))
     ∧ ∀ r a,
         OrganizationUser.hasPermission m' r a = true ↔
         cell_true t r a
         ∨ (is_Some (t !! r) ∧ a ≠ "__proto__"
            ∧ OrganizationUser.hasPermission m r a = true))
  ∧ (plain_keys m → ∃ m', OrganizationUser.updateRole m newRole = Some m').
Proof.
  intros Hne Ht. split; [|by apply updateRole_total].
  intros m' Hup.
  destruct (updateRole_spec m newRole m' t Hne Ht Hup) as (Hrole & Hdef & Hkeep & Hkeys).
  split; [done|]. split; [done|].
  intros r a. rewrite !hasPermission_stored. split.
  - revert Hup. unfold OrganizationUser.updateRole, OrganizationUser.beforeUpdate.
    simpl. rewrite bool_decide_eq_true_2 by done. rewrite Ht.
    destruct (OrganizationUser.mergePermissions _ _) as [out|] eqn:Hm; [|done].
    simpl. intros [= <-]. rewrite stored_set_permissions. intros Hra.
    eapply mergePermissions_only in Hra; [|..|exact Hm].
    + simpl in Hra. done.
    + simpl. destruct (getRolePermissions_table _ _ Ht) as (ro & ->).
      apply default_table_no_proto.
  - intros [?|(? & ? & ?)]; [by apply Hdef|by apply Hkeep].
Qed.

Lemma updateRole_permissions_witness :
  ∃ m', OrganizationUser.updateRole fresh_viewer "guest" = Some m'
        ∧ OrganizationUser.hasPermission m' "reports" "read" = true.
Proof.
  destruct (updateRole_permissions fresh_viewer "guest" (default_table guest))
    as [Hspec Htotal]; [done|reflexivity|].
  destruct Htotal as (m' & E).
  - intros k Hk. apply (table_keys_plain _ viewer k eq_refl Hk).
  - exists m'. split; [done|].
    apply (Hspec m' E). right. split; [by eexists|]. split; [done|].
    apply hasPermission_stored, true_cells_spec.
    apply (bool_decide_unpack _). vm_compute. exact I.
Defined.

(** ** The management shortcuts *)

(** X4: on a membership that holds the default table of its role, the
    role test of [canManageUsers] and of [canManageOrganization] adds
    nothing to the permission test: each answers what [hasPermission] says
    for [users.write], respectively [organizations.write]. *)
Theorem canManage_agrees_with_matrix (r : role) (m : OrganizationUser.t) :
  m.(OrganizationUser.role) = role_name r →
  m.(OrganizationUser.permissions) = Some (getRolePermissions (role_name r)) →
  OrganizationUser.canManageUsers m = OrganizationUser.hasPermission m "users" "write"
  ∧ OrganizationUser.canManageOrganization m
    = OrganizationUser.hasPermission m "organizations" "write"
  ∧ Returns (OrganizationUser.isOwnerOrAdmin m)
    = OrganizationUser.canManageOrganization m.
Proof.
  intros Hrole Hperm.
  unfold OrganizationUser.canManageUsers, OrganizationUser.canManageOrganization,
    OrganizationUser.isOwnerOrAdmin, OrganizationUser.hasPermission.
  rewrite Hrole, Hperm.
  destruct r; vm_compute; done.
Qed.

Lemma canManage_agrees_with_matrix_witness :
  OrganizationUser.canManageUsers fresh_viewer
  = OrganizationUser.hasPermission fresh_viewer "users" "write".
Proof.
  apply (canManage_agrees_with_matrix viewer fresh_viewer); reflexivity.
Defined.

(** X5: a grant of [users.write] makes [canManageUsers] hold whatever the
    role is, and a revocation of [users.write] does not stop it for an
    [owner], [admin] or [manager]. *)
Theorem canManageUsers_grant_revoke (m : OrganizationUser.t) :
  (∀ m', OrganizationUser.grantPermission m "users" "write" = Some m' →
         OrganizationUser.canManageUsers m' = true)
  ∧ (∀ m', m.(OrganizationUser.role) ∈ ["owner"; "admin"; "manager"] →
           OrganizationUser.revokePermission m "users" "write" = Some m' →
           OrganizationUser.hasPermission m' "users" "write" = false
           ∧ OrganizationUser.canManageUsers m' = true).
Proof.
  assert ("users" ∉ Object_prototype_keys) as Hk
    by (unfold Object_prototype_keys; set_solver).
  split.
  - intros m' Hg.
    destruct (grantPermission_spec m "users" "write" m' Hg) as (_ & Hc & _).
    unfold OrganizationUser.canManageUsers.
    apply hasPermission_stored in Hc; [|done]. rewrite Hc. by case_bool_decide.
  - intros m' Hrole Hr.
    destruct (revokePermission_spec m "users" "write" Hk) as (m2 & E & Hrole2 & Hf & _).
    rewrite Hr in E. injection E as <-. split; [done|].
    unfold OrganizationUser.canManageUsers. rewrite Hrole2.
    by rewrite bool_decide_eq_true_2.
Qed.

Lemma canManageUsers_grant_revoke_witness :
  ∃ m', OrganizationUser.grantPermission fresh_viewer "users" "write" = Some m'
        ∧ OrganizationUser.canManageUsers m' = true.
Proof.
  destruct (grantPermission_total fresh_viewer "users" "write") as (m' & E).
  - by eexists.
  - exists m'. split; [done|].
    by apply (proj1 (canManageUsers_grant_revoke fresh_viewer) m').
Defined.

(** ** The last owner *)

(** X6: removals keep the last-owner invariant.  When the identifiers of
    the table are distinct and the membership being removed is a row of the
    table, a removal that goes through leaves every organization that had
    an active owner with an active owner. *)
Theorem destroy_keeps_an_owner (now : Z) (rows rows' : list OrganizationUser.t)
    (orgUser : OrganizationUser.t) (org : string) :
  NoDup (OrganizationUser.id <$> rows) →
  orgUser ∈ rows →
  OrganizationUser.destroy now rows orgUser = (None, rows') →
  has_active_owner rows org →
  has_active_owner rows' org.
Proof.
  intros Hnd Hin Hd (r & Hr & Horg & Hrole & Hact & Hlive).
  unfold OrganizationUser.destroy, OrganizationUser.beforeDestroy in Hd.
  assert (∀ x, x ∈ rows →
               x.(OrganizationUser.id) ≠ orgUser.(OrganizationUser.id) →
               x ∈ (λ r0, if bool_decide (r0.(OrganizationUser.id)
                                          = orgUser.(OrganizationUser.id))
                          then OrganizationUser.set_deletedAt r0 (Some now)
                          else r0) <$> rows) as Hkeep.
  { intros x Hx Hne. apply list_elem_of_fmap. exists x.
    by rewrite bool_decide_eq_false_2. }
  destruct (decide (r.(OrganizationUser.id) = orgUser.(OrganizationUser.id))) as [Hid|Hid].
  - assert (r = orgUser) as ->.
    { apply list_elem_of_lookup in Hr as [i Hi]. apply list_elem_of_lookup in Hin as [j Hj].
      assert (i = j) as ->; [|congruence].
      eapply NoDup_lookup; [done|..]; rewrite list_lookup_fmap.
      - by rewrite Hi.
      - rewrite Hj. simpl. by rewrite Hid. }
    rewrite bool_decide_eq_true_2 in Hd by done.
    rewrite count_other_owners_filter in Hd.
    destruct (filter (other_active_owner orgUser) rows) as [|r2 rest] eqn:Ef; [done|].
    simpl in Hd. injection Hd as <-.
    assert (r2 ∈ filter (other_active_owner orgUser) rows) as Hr2
      by (rewrite Ef; by left).
    apply list_elem_of_filter in Hr2 as [(Ho & Hro & Ha & Hne & Hl) Hr2].
    exists r2. split; [by apply Hkeep|]. split; [congruence|]. done.
  - exists r. split; [|done].
    destruct (bool_decide _); [destruct (_ =? _)|]; try done;
      injection Hd as <-; by apply Hkeep.
Qed.

Lemma destroy_keeps_an_owner_witness :
  let o1 := OrganizationUser.mk "m-1" "u-1" "o-1" "owner" None true None in
  let o2 := OrganizationUser.mk "m-2" "u-2" "o-1" "owner" None true None in
  has_active_owner [o1; OrganizationUser.set_deletedAt o2 (Some 7%Z)] "o-1".
Proof.
  intros o1 o2.
  apply (destroy_keeps_an_owner 7 [o1; o2] _ o2 "o-1").
  - apply (bool_decide_unpack _). vm_compute. exact I.
  - set_solver.
  - reflexivity.
  - exists o1. split; [set_solver|]. done.
Defined.

(** ** Walks up the hierarchy *)

Lemma findByPk_Some rows pk o :
  Organization.findByPk rows pk = Some o →
  o ∈ rows ∧ o.(Organization.id) = pk ∧ o.(Organization.deletedAt) = None.
Proof.
  unfold Organization.findByPk. intros H. apply find_some in H as [Hin Hb].
  apply andb_true_iff in Hb as [H1 H2].
  apply bool_decide_eq_true in H1, H2. by rewrite list_elem_of_In.
Qed.

Lemma parent_chain_head rows o path :
  parent_chain rows o path → ∃ rest, path = o :: rest.
Proof. destruct 1; eauto. Qed.

(** X7: a parent reference that names no stored row ends the walk of
    [getFullHierarchy] like a root does: the function returns the
    organizations met up to there, outermost first, and does not fail.  In
    every case the last element is the organization itself. *)
Theorem getFullHierarchy_stops_at_missing_parent rows o path :
  upward_walk rows o path →
  ∀ fuel, length path ≤ fuel →
    Organization.getFullHierarchy fuel rows o
    = Some (Organization.entry_of <$> reverse path)
    ∧ last (Organization.entry_of <$> reverse path) = Some (Organization.entry_of o).
Proof.
  intros Hwalk fuel Hfuel. unfold Organization.getFullHierarchy.
  rewrite (getFullHierarchy_loop_walk rows o path Hwalk) by done.
  rewrite app_nil_r. split; [done|].
  assert (∃ rest, path = o :: rest) as (rest & ->) by (destruct Hwalk; eauto).
  rewrite reverse_cons, fmap_app. simpl. by rewrite last_snoc.
Qed.

Lemma getFullHierarchy_stops_at_missing_parent_witness :
  Organization.getFullHierarchy 1 [tree_child] tree_child
  = Some [Organization.entry_of tree_child].
Proof.
  apply (getFullHierarchy_stops_at_missing_parent [tree_child] tree_child [tree_child]).
  - by apply (walk_missing _ _ "o-1").
  - simpl. lia.
Defined.

Lemma isDescendantOf_loop_chain rows o path a :
  parent_chain rows o path →
  ∀ fuel, length path ≤ fuel →
    Organization.isDescendantOf_loop fuel rows (Some o) (Some a)
    = Some (bool_decide (a ∈ Organization.id <$> tail path)).
Proof.
  induction 1 as [o Hroot|o pid p path Hpid Ht Hfind Hchain IH];
    intros fuel Hfuel; simpl in Hfuel.
  - assert (bool_decide (a ∈ Organization.id <$> tail [o]) = false) as ->
      by (apply bool_decide_eq_false_2, not_elem_of_nil).
    destruct fuel; simpl; by rewrite Hroot.
  - destruct fuel as [|fuel]; [lia|]. simpl. rewrite Hpid. simpl. rewrite Ht.
    destruct (parent_chain_head _ _ _ Hchain) as (rest & ->).
    apply findByPk_Some in Hfind as Hp. destruct Hp as (_ & Hid & _).
    rewrite Hfind. simpl.
    destruct (decide (pid = a)) as [<-|Hne].
    + rewrite (bool_decide_eq_true_2 (Some pid = Some pid)) by done.
      rewrite bool_decide_eq_true_2; [done|]. rewrite Hid. by left.
    + rewrite (bool_decide_eq_false_2 (Some pid = Some a)) by congruence.
      rewrite IH by (simpl in *; lia). simpl. f_equal.
      apply bool_decide_ext. rewrite elem_of_cons. split; [by right|].
      intros [->|?]; [congruence|done].
Qed.

(** X8: on an organization whose parent references lead to a root,
    [isDescendantOf] ends and decides whether the given identifier is among
    the proper ancestors, the ones that [getFullHierarchy] lists before the
    organization itself. *)
Theorem isDescendantOf_decides_ancestors rows o path (a : string) :
  parent_chain rows o path →
  ∀ fuel, length path ≤ fuel →
    Organization.isDescendantOf fuel rows o (Some a)
    = Some (bool_decide (a ∈ Organization.id <$> tail path))
    ∧ Organization.getFullHierarchy fuel rows o
      = Some (Organization.entry_of <$> reverse path).
Proof.
  intros Hchain fuel Hfuel. split.
  - by apply isDescendantOf_loop_chain.
  - unfold Organization.getFullHierarchy.
    rewrite (getFullHierarchy_loop_chain rows o path Hchain) by done.
    by rewrite app_nil_r.
Qed.

Lemma isDescendantOf_decides_ancestors_witness :
  Organization.isDescendantOf 2 tree_rows tree_child (Some "o-1") = Some true.
Proof.
  apply (isDescendantOf_decides_ancestors tree_rows tree_child [tree_child; tree_root] "o-1").
  - eapply chain_step; [reflexivity..|]. by apply chain_root.
  - simpl. lia.
Defined.

Lemma validateHierarchy_on_chain rows (parentId childId : string) parent path :
  truthy_str parentId = true →
  truthy_str childId = true →
  Organization.findByPk rows parentId = Some parent →
  parent_chain rows parent path →
  ∀ fuel, length path ≤ fuel →
    Organization.validateHierarchy fuel rows (Some parentId) (Some childId)
    = Some (bool_decide (childId ∉ Organization.id <$> path)).
Proof.
  intros Hp Hc Hfind Hchain fuel Hfuel.
  unfold Organization.validateHierarchy. simpl. rewrite Hp, Hc. simpl.
  destruct (parent_chain_head _ _ _ Hchain) as (rest & Hpath).
  apply findByPk_Some in Hfind as Hpar. destruct Hpar as (_ & Hid & _).
  case_bool_decide as Heq.
  - injection Heq as <-. rewrite bool_decide_eq_false_2; [done|].
    intros Hn. apply Hn. rewrite Hpath. simpl. rewrite Hid. by left.
  - rewrite Hfind. unfold Organization.isDescendantOf.
    rewrite (isDescendantOf_loop_chain rows parent path childId Hchain) by done.
    simpl. f_equal. rewrite Hpath. simpl.
    destruct (decide (childId ∈ Organization.id <$> rest)) as [Hin|Hin].
    + rewrite bool_decide_eq_true_2, bool_decide_eq_false_2; try done.
      intros Hn. apply Hn. by right.
    + rewrite bool_decide_eq_false_2, bool_decide_eq_true_2; try done.
      rewrite not_elem_of_cons. split; [|done]. rewrite Hid. congruence.
Qed.

(** X9: when the new parent is stored and its parent references lead to a
    root, [validateHierarchy] ends and accepts exactly when the child's
    identifier is not on the chain from the new parent up to that root. *)
Theorem validateHierarchy_decides rows (parentId childId : string) parent path :
  truthy_str parentId = true →
  truthy_str childId = true →
  Organization.findByPk rows parentId = Some parent →
  parent_chain rows parent path →
  ∀ fuel, length path ≤ fuel →
    Organization.validateHierarchy fuel rows (Some parentId) (Some childId)
    = Some (bool_decide (childId ∉ Organization.id <$> path)).
Proof. apply validateHierarchy_on_chain. Qed.

Lemma validateHierarchy_decides_witness :
  Organization.validateHierarchy 1 tree_rows (Some "o-1") (Some "o-2") = Some true.
Proof.
  apply (validateHierarchy_decides tree_rows "o-1" "o-2" tree_root [tree_root]).
  - reflexivity.
  - reflexivity.
  - reflexivity.
  - by apply chain_root.
  - simpl. lia.
Defined.

(** ** Giving an organization a new parent *)

Lemma findByPk_reparent rows childId parentId pk :
  Organization.findByPk (reparent rows childId parentId) pk
  = (λ o, if bool_decide (o.(Organization.id) = childId)
          then Organization.mk o.(Organization.id) o.(Organization.name)
                 o.(Organization.slug) (Some parentId)
                 o.(Organization.isActive) o.(Organization.deletedAt)
          else o) <$> Organization.findByPk rows pk.
Proof.
  unfold Organization.findByPk, reparent.
  induction rows as [|o rows IH]; [done|].
  rewrite fmap_cons. simpl.
  assert (∀ x : Organization.t,
            Organization.id (if bool_decide (Organization.id x = childId)
                             then Organization.mk (Organization.id x) (Organization.name x)
                                    (Organization.slug x) (Some parentId)
                                    (Organization.isActive x) (Organization.deletedAt x)
                             else x) = Organization.id x
            ∧ Organization.deletedAt (if bool_decide (Organization.id x = childId)
                             then Organization.mk (Organization.id x) (Organization.name x)
                                    (Organization.slug x) (Some parentId)
                                    (Organization.isActive x) (Organization.deletedAt x)
                             else x) = Organization.deletedAt x) as Hsame.
  { intros x. by case_bool_decide. }
  destruct (Hsame o) as [-> ->].
  destruct (bool_decide (Organization.id o = pk)
            && bool_decide (Organization.deletedAt o = None)); [done|].
  apply IH.
Qed.

Lemma findByPk_reparent_other rows childId parentId pk o :
  pk ≠ childId →
  Organization.findByPk rows pk = Some o →
  Organization.findByPk (reparent rows childId parentId) pk = Some o.
Proof.
  intros Hne Hfind. rewrite findByPk_reparent, Hfind. simpl.
  apply findByPk_Some in Hfind as (_ & Hid & _).
  rewrite bool_decide_eq_false_2; [done|congruence].
Qed.

Lemma parent_chain_reparent rows childId parentId o path :
  parent_chain rows o path →
  childId ∉ Organization.id <$> path →
  parent_chain (reparent rows childId parentId) o path.
Proof.
  induction 1 as [o Hroot|o pid p path Hpid Ht Hfind Hchain IH]; intros Hnot.
  - by apply chain_root.
  - rewrite fmap_cons, not_elem_of_cons in Hnot. destruct Hnot as [Ho Hrest].
    eapply chain_step; [done..| |by apply IH].
    apply findByPk_reparent_other; [|done].
    destruct (parent_chain_head _ _ _ Hchain) as (rest & ->).
    apply findByPk_Some in Hfind as (_ & Hid & _).
    rewrite fmap_cons, not_elem_of_cons in Hrest. destruct Hrest as [Hp _]. congruence.
Qed.

(** X10: cycle prevention.  Let the new parent be stored with parent
    references that lead to a root, and let [validateHierarchy] accept the
    pair.  Then, once the parent reference of the child is set to the new
    parent, the parent references of the child lead to that same root
    through the new parent: the hierarchy walk from the child ends. *)
Theorem accepted_parent_keeps_walks_finite rows (parentId childId : string)
    child parent path fuel :
  Organization.findByPk rows childId = Some child →
  Organization.findByPk rows parentId = Some parent →
  parent_chain rows parent path →
  length path ≤ fuel →
  Organization.validateHierarchy fuel rows (Some parentId) (Some childId) = Some true →
  ∃ child',
    Organization.findByPk (reparent rows childId parentId) childId = Some child'
    ∧ child'.(Organization.parentId) = Some parentId
    ∧ parent_chain (reparent rows childId parentId) child' (child' :: path)
    ∧ Organization.getFullHierarchy (S fuel) (reparent rows childId parentId) child'
      = Some (Organization.entry_of <$> reverse (child' :: path)).
Proof.
  intros Hchild Hparent Hchain Hfuel Hok.
  assert (truthy_str parentId = true ∧ truthy_str childId = true) as [Hp Hc].
  { unfold Organization.validateHierarchy in Hok. simpl in Hok.
    destruct (truthy_str parentId), (truthy_str childId); simpl in Hok; done. }
  rewrite (validateHierarchy_on_chain rows parentId childId parent path) in Hok by done.
  injection Hok as Hok. apply bool_decide_eq_true in Hok.
  pose proof (findByPk_Some _ _ _ Hchild) as (_ & Hcid & _).
  set (child' := Organization.mk childId (Organization.name child)
                   (Organization.slug child) (Some parentId)
                   (Organization.isActive child) (Organization.deletedAt child)).
  exists child'. split.
  { rewrite findByPk_reparent, Hchild. simpl.
    rewrite bool_decide_eq_true_2 by done. unfold child'. by rewrite Hcid. }
  split; [done|].
  assert (parent_chain (reparent rows childId parentId) child' (child' :: path)) as Hnew.
  { eapply chain_step; [done|done| |by apply parent_chain_reparent].
    apply findByPk_reparent_other; [|done].
    intros ->. apply Hok.
    destruct (parent_chain_head _ _ _ Hchain) as (rest & ->).
    apply findByPk_Some in Hparent as (_ & Hid & _).
    rewrite fmap_cons, Hid. by left. }
  split; [done|].
  unfold Organization.getFullHierarchy.
  rewrite (getFullHierarchy_loop_chain _ _ _ Hnew) by (simpl; lia).
  by rewrite app_nil_r.
Qed.

Lemma accepted_parent_keeps_walks_finite_witness :
  second_root.(Organization.parentId) = None
  ∧ reparent forest_rows "o-3" "o-2" ≠ forest_rows
  ∧ ∃ child',
      Organization.findByPk (reparent forest_rows "o-3" "o-2") "o-3" = Some child'
      ∧ child'.(Organization.parentId) = Some "o-2"
      ∧ parent_chain (reparent forest_rows "o-3" "o-2") child'
          [child'; tree_child; tree_root]
      ∧ Organization.getFullHierarchy 3 (reparent forest_rows "o-3" "o-2") child'
        = Some [Organization.entry_of tree_root; Organization.entry_of tree_child;
                Organization.entry_of child'].
Proof.
  split; [reflexivity|]. split; [discriminate|].
  destruct (accepted_parent_keeps_walks_finite forest_rows "o-2" "o-3"
              second_root tree_child [tree_child; tree_root] 2)
    as (child' & H1 & H2 & H3 & H4).
  - reflexivity.
  - reflexivity.
  - eapply chain_step; [reflexivity..|]. by apply chain_root.
  - simpl. lia.
  - reflexivity.
  - by exists child'.
Defined.

(** ** Walks down the hierarchy *)

Lemma findActiveChildren_spec rows a o :
  o ∈ Organization.findActiveChildren rows a ↔ active_child rows a o.
Proof.
  unfold Organization.findActiveChildren, active_child.
  rewrite list_elem_of_In, filter_In, <-list_elem_of_In.
  rewrite !andb_true_iff, !bool_decide_eq_true. tauto.
Qed.

Lemma active_descendant_extend rows a p o :
  active_descendant rows a p →
  active_child rows p.(Organization.id) o →
  active_descendant rows a o.
Proof.
  induction 1 as [a p Hp|a c p Hc Hd IH]; intros Ho.
  - eapply descendant_step; [done|]. by apply descendant_child.
  - eapply descendant_step; [done|]. by apply IH.
Qed.

Lemma getAllDescendants_loop_sound rows root fuel :
  ∀ descendants queue result,
    Organization.getAllDescendants_loop fuel rows descendants queue = Some result →
    (∀ o, o ∈ descendants → active_descendant rows root o) →
    (∀ q, q ∈ queue →
          q = root ∨ ∃ c, active_descendant rows root c ∧ c.(Organization.id) = q) →
    ∀ o, o ∈ result → active_descendant rows root o.
Proof.
  induction fuel as [|fuel IH]; intros descendants queue result Hloop Hd Hq.
  - destruct queue; [|done]. injection Hloop as <-. done.
  - destruct queue as [|q queue]; [injection Hloop as <-; done|].
    simpl in Hloop. apply (IH _ _ _ Hloop).
    + intros o [Ho|Ho]%elem_of_app; [by apply Hd|].
      apply findActiveChildren_spec in Ho.
      destruct (Hq q) as [->|(c & Hc & <-)]; [by left|by apply descendant_child|].
      by eapply active_descendant_extend.
    + intros q' [Hq'|Hq']%elem_of_app; [apply Hq; by right|].
      apply list_elem_of_In, in_map_iff in Hq' as (c & <- & Hc).
      apply list_elem_of_In, findActiveChildren_spec in Hc.
      right. exists c. split; [|done].
      destruct (Hq q) as [->|(c0 & Hc0 & <-)]; [by left|by apply descendant_child|].
      by eapply active_descendant_extend.
Qed.

Lemma getAllDescendants_loop_complete rows fuel :
  ∀ descendants queue result,
    Organization.getAllDescendants_loop fuel rows descendants queue = Some result →
    (∀ o, o ∈ descendants → o ∈ result)
    ∧ (∀ q o, q ∈ queue → active_descendant rows q o → o ∈ result).
Proof.
  induction fuel as [|fuel IH]; intros descendants queue result Hloop.
  - destruct queue; [|done]. injection Hloop as <-. split; [done|].
    intros q o Hq. by apply elem_of_nil in Hq.
  - destruct queue as [|q queue].
    { injection Hloop as <-. split; [done|]. intros q o Hq. by apply elem_of_nil in Hq. }
    simpl in Hloop. destruct (IH _ _ _ Hloop) as [Hd Hq]. split.
    + intros o Ho. apply Hd, elem_of_app. by left.
    + intros q' o [->|Hq']%elem_of_cons Hdesc.
      * inversion Hdesc as [o' Hc|c o' Hc Hrest]; subst.
        -- apply Hd, elem_of_app. right. by apply findActiveChildren_spec.
        -- apply (Hq (Organization.id c)); [|done]. apply elem_of_app. right.
           apply list_elem_of_In, in_map_iff. exists c. split; [done|].
           by apply list_elem_of_In, findActiveChildren_spec.
      * apply (Hq q'); [|done]. apply elem_of_app. by left.
Qed.

Lemma walk_cost_mono n h h' : h ≤ h' → walk_cost n h ≤ walk_cost n h'.
Proof.
  induction 1 as [|h' Hle IH]; [done|]. simpl. lia.
Qed.

Lemma walk_cost_children rows height a :
  ranked rows height →
  sum_list_with (λ o, walk_cost (length rows) (height o.(Organization.id)))
                (Organization.findActiveChildren rows a)
  < walk_cost (length rows) (height a).
Proof.
  intros Hr.
  destruct (height a) as [|h] eqn:Eh.
  - destruct (Organization.findActiveChildren rows a) as [|o l] eqn:E; [simpl; lia|].
    assert (o ∈ Organization.findActiveChildren rows a) as Ho by (rewrite E; by left).
    apply findActiveChildren_spec, Hr in Ho. lia.
  - simpl.
    assert (∀ l, (∀ o, o ∈ l → active_child rows a o) →
              sum_list_with (λ o, walk_cost (length rows) (height o.(Organization.id))) l
              ≤ length l * walk_cost (length rows) h) as Hsum.
    { induction l as [|o l IH]; intros Hl; simpl; [lia|].
      assert (height (Organization.id o) ≤ h) as Hh.
      { assert (active_child rows a o) as Ho by (apply Hl; by left).
        apply Hr in Ho. lia. }
      apply (walk_cost_mono (length rows)) in Hh.
      assert (∀ o', o' ∈ l → active_child rows a o') as Hl'
        by (intros o' Ho'; apply Hl; by right).
      apply Nat.add_le_mono; [exact Hh|exact (IH Hl')]. }
    specialize (Hsum (Organization.findActiveChildren rows a)
                  (λ o, proj1 (findActiveChildren_spec rows a o))).
    assert (length (Organization.findActiveChildren rows a) ≤ length rows) as Hlen.
    { unfold Organization.findActiveChildren. apply filter_length_le. }
    nia.
Qed.

Lemma sum_list_with_map {A B} (f : B → nat) (g : A → B) (l : list A) :
  sum_list_with f (List.map g l) = sum_list_with (λ x, f (g x)) l.
Proof. induction l as [|x l IH]; simpl; [done|]. by rewrite IH. Qed.

Lemma getAllDescendants_loop_total rows height :
  ranked rows height →
  ∀ fuel descendants queue,
    sum_list_with (λ q, walk_cost (length rows) (height q)) queue ≤ fuel →
    ∃ result, Organization.getAllDescendants_loop fuel rows descendants queue = Some result.
Proof.
  intros Hr. induction fuel as [|fuel IH]; intros descendants queue Hfuel.
  - destruct queue as [|q queue]; [by eexists|].
    simpl in Hfuel. destruct (height q); simpl in Hfuel; lia.
  - destruct queue as [|q queue]; [by eexists|].
    simpl. apply IH. rewrite sum_list_with_app, sum_list_with_map.
    pose proof (walk_cost_children rows height q Hr) as Hc.
    simpl in Hfuel. lia.
Qed.

(** X11: [getAllDescendants] on a forest.  When the active rows can be
    ranked so that each child ranks below its parent, the breadth-first
    walk ends, and it returns exactly the organizations reached from the
    starting one through live, active children; what lies below an inactive
    child is left out.  Without any active child the result is empty. *)
Theorem getAllDescendants_exact rows height (this : Organization.t) :
  ranked rows height →
  ∀ fuel, walk_cost (length rows) (height this.(Organization.id)) ≤ fuel →
    ∃ result,
      Organization.getAllDescendants fuel rows this = Some result
      ∧ (∀ o, o ∈ result ↔ active_descendant rows this.(Organization.id) o)
      ∧ (Organization.findActiveChildren rows this.(Organization.id) = [] → result = []).
Proof.
  intros Hr fuel Hfuel. unfold Organization.getAllDescendants.
  destruct (getAllDescendants_loop_total rows height Hr fuel [] [Organization.id this])
    as (result & Hloop); [simpl; lia|].
  exists result. split; [done|]. split.
  - intros o. split.
    + apply (getAllDescendants_loop_sound rows _ fuel [] [Organization.id this] result Hloop).
      * intros o' Ho'. by apply elem_of_nil in Ho'.
      * intros q ->%list_elem_of_singleton. by left.
    + destruct (getAllDescendants_loop_complete rows fuel _ _ _ Hloop) as [_ Hq].
      apply Hq. by left.
  - intros Hnone. destruct fuel as [|fuel]; [done|].
    simpl in Hloop. rewrite Hnone in Hloop. simpl in Hloop.
    destruct fuel; by injection Hloop as <-.
Qed.

Lemma getAllDescendants_exact_witness :
  ∃ result,
    Organization.getAllDescendants 4 tree_rows tree_root = Some result
    ∧ ∀ o, o ∈ result ↔ active_descendant tree_rows "o-1" o.
Proof.
  destruct (getAllDescendants_exact tree_rows
              (λ i, if String.eqb i "o-1" then 1 else 0) tree_root) with (fuel := 4)
    as (result & H1 & H2 & _).
  - intros a o (Hin & Hp & _). unfold tree_rows in Hin.
    apply elem_of_cons in Hin as [->|Hin]; [done|].
    apply list_elem_of_singleton in Hin as ->. injection Hp as <-. simpl. lia.
  - vm_compute. lia.
  - by exists result.
Defined.

(** ** Slugs *)

Lemma all_chars_keep P s : all_chars P (Organization.keep_chars P s) = true.
Proof.
  induction s as [|c s IH]; simpl; [done|].
  destruct (P c) eqn:E; simpl; [by rewrite E|done].
Qed.

Lemma slug_char_not_space c :
  Organization.slug_char c = true → Organization.is_space c = false →
  valid_slug_char c = true.
Proof.
  unfold Organization.slug_char, valid_slug_char. intros H Hs. rewrite Hs in H.
  by rewrite orb_false_r in H.
Qed.

Lemma valid_slug_char_hyphen : valid_slug_char "-" = true.
Proof. reflexivity. Qed.

Lemma valid_slug_char_no_space c :
  valid_slug_char c = true → Organization.is_space c = false.
Proof. destruct c as [[] [] [] [] [] [] [] []]; vm_compute; congruence. Qed.

Lemma runs_space_valid b s :
  all_chars Organization.slug_char s = true →
  all_chars valid_slug_char (Organization.runs_to_hyphen Organization.is_space b s) = true.
Proof.
  revert b. induction s as [|c s IH]; intros b; simpl; [done|].
  intros [Hc Hs]%andb_true_iff.
  destruct (Organization.is_space c) eqn:E.
  - destruct b; simpl; rewrite ?valid_slug_char_hyphen; by apply IH.
  - simpl. rewrite slug_char_not_space by done. by apply IH.
Qed.

Lemma runs_hyphen_valid b s :
  all_chars valid_slug_char s = true →
  all_chars valid_slug_char (Organization.runs_to_hyphen Organization.is_hyphen b s) = true.
Proof.
  revert b. induction s as [|c s IH]; intros b; simpl; [done|].
  intros [Hc Hs]%andb_true_iff.
  destruct (Organization.is_hyphen c) eqn:E.
  - destruct b; simpl; rewrite ?valid_slug_char_hyphen; by apply IH.
  - simpl. rewrite Hc. by apply IH.
Qed.

Lemma runs_hyphen_single b s :
  double_hyphen (Organization.runs_to_hyphen Organization.is_hyphen b s) = false
  ∧ (b = true →
     ∀ c r, Organization.runs_to_hyphen Organization.is_hyphen b s = String c r →
            Organization.is_hyphen c = false).
Proof.
  revert b. induction s as [|c s IH]; intros b; simpl; [done|].
  destruct (Organization.is_hyphen c) eqn:E.
  - destruct b.
    + apply IH.
    + destruct (IH true) as [H1 H2]. split; [|done].
      destruct (Organization.runs_to_hyphen Organization.is_hyphen true s) as [|c' r] eqn:Er;
        [done|].
      change (double_hyphen (String "-" (String c' r)))
        with ((Organization.is_hyphen "-" && Organization.is_hyphen c')
              || double_hyphen (String c' r)).
      rewrite (H2 eq_refl c' r eq_refl), H1. done.
  - destruct (IH false) as [H1 _]. split.
    + destruct (Organization.runs_to_hyphen Organization.is_hyphen false s) as [|c' r] eqn:Er;
        [done|].
      change (double_hyphen (String c (String c' r)))
        with ((Organization.is_hyphen c && Organization.is_hyphen c')
              || double_hyphen (String c' r)).
      by rewrite E, H1.
    + intros _ c0 r [= <- _]. done.
Qed.

Lemma trim_no_space s :
  all_chars valid_slug_char s = true → Organization.trim s = s.
Proof.
  intros H. unfold Organization.trim.
  assert (Organization.trimStart s = s) as ->.
  { destruct s as [|c s]; simpl in *; [done|].
    apply andb_true_iff in H as [Hc _]. by rewrite valid_slug_char_no_space. }
  induction s as [|c s IH]; simpl in *; [done|].
  apply andb_true_iff in H as [Hc Hs].
  rewrite valid_slug_char_no_space by done. simpl. by rewrite IH.
Qed.

(** X12: the slug that [beforeValidate] derives from a name of ASCII
    characters holds only lower-case letters, digits and hyphens, so it
    passes the [is] validator of the column unless it is empty, and it never
    holds two hyphens in a row.  The final [trim] changes nothing: a name
    that begins with a space or a hyphen gives a slug that begins with a
    hyphen. *)
Theorem generateSlug_shape (name : string) :
  all_chars is_ascii7 name = true →
  all_chars valid_slug_char (Organization.generateSlug name) = true
  ∧ double_hyphen (Organization.generateSlug name) = false
  ∧ (∀ c rest, name = String c rest →
       Organization.is_space c || Organization.is_hyphen c = true →
       ∃ s, Organization.generateSlug name = String "-" s).
Proof.
  intros _. unfold Organization.generateSlug.
  set (kept := Organization.keep_chars Organization.slug_char
                 (Organization.toLowerCase name)).
  assert (all_chars valid_slug_char
            (Organization.runs_to_hyphen Organization.is_hyphen false
               (Organization.runs_to_hyphen Organization.is_space false kept)) = true) as Hv.
  { apply runs_hyphen_valid, runs_space_valid, all_chars_keep. }
  rewrite trim_no_space by done. split; [done|]. split.
  - apply runs_hyphen_single.
  - intros c rest -> Hc. unfold kept. simpl.
    assert (Organization.lower c = c ∧ Organization.slug_char c = true) as [-> ->].
    { revert Hc. destruct c as [[] [] [] [] [] [] [] []]; vm_compute; try done. }
    simpl. apply orb_true_iff in Hc as [Hs|Hh].
    + rewrite Hs. simpl. eauto.
    + assert (Organization.is_space c = false) as ->.
      { revert Hh. destruct c as [[] [] [] [] [] [] [] []]; vm_compute; congruence. }
      simpl. rewrite Hh. eauto.
Qed.

Lemma generateSlug_shape_witness :
  Organization.generateSlug "Acme Corp!!" = "acme-corp"
  ∧ all_chars valid_slug_char (Organization.generateSlug "Acme Corp!!") = true.
Proof.
  split; [reflexivity|].
  apply (generateSlug_shape "Acme Corp!!"). reflexivity.
Defined.

Lemma decimal_inj k k' : Organization.decimal k = Organization.decimal k' → k = k'.
Proof.
  unfold Organization.decimal. intros H.
  apply DecimalNat.Unsigned.to_uint_inj.
  assert (Some (Nat.to_uint k) = Some (Nat.to_uint k')) as [= ?]; [|done].
  by rewrite <-!DecimalString.NilEmpty.usu, H.
Qed.

Lemma append_inj_r (s t t' : string) : (s ++ t = s ++ t')%string → t = t'.
Proof. induction s as [|c s IH]; simpl; [done|]. intros [= ?]. by apply IH. Qed.

Lemma candidate_inj (base : string) k k' :
  (base ++ "-" ++ Organization.decimal k = base ++ "-" ++ Organization.decimal k')%string →
  k = k'.
Proof. intros H. apply append_inj_r in H. simpl in H. injection H as H. by apply decimal_inj. Qed.

Lemma findOneBySlug_Some rows s o :
  Organization.findOneBySlug rows s = Some o → o ∈ rows ∧ o.(Organization.slug) = s.
Proof.
  unfold Organization.findOneBySlug. intros H. apply find_some in H as [Hin Hb].
  apply andb_true_iff in Hb as [H1 _]. apply bool_decide_eq_true in H1.
  by rewrite list_elem_of_In.
Qed.

(** Among any [length rows + 1] consecutive candidates one is free. *)
Lemma free_candidate rows (base : string) c :
  ∃ k, k ≤ length rows
       ∧ Organization.findOneBySlug rows (base ++ "-" ++ Organization.decimal (c + k)) = None.
Proof.
  set (cand := λ k, (base ++ "-" ++ Organization.decimal (c + k))%string).
  destruct (decide (Exists (λ k, Organization.findOneBySlug rows (cand k) = None)
                           (seq 0 (S (length rows))))) as [Hex|Hall].
  - apply Exists_exists in Hex as (k & Hk & Hfree).
    apply elem_of_seq in Hk. exists k. split; [lia|done].
  - exfalso. apply not_Exists_Forall in Hall; [|intros ?; apply _].
    rewrite Forall_forall in Hall.
    assert (NoDup (cand <$> seq 0 (S (length rows)))) as Hnd.
    { apply NoDup_fmap_2; [|apply NoDup_seq].
      intros k k' H. apply candidate_inj in H. lia. }
    assert (cand <$> seq 0 (S (length rows)) ⊆ Organization.slug <$> rows) as Hsub.
    { intros s (k & -> & Hk)%list_elem_of_fmap.
      specialize (Hall k Hk). simpl in Hall.
      destruct (Organization.findOneBySlug rows (cand k)) as [o|] eqn:E; [|done].
      apply findOneBySlug_Some in E as [Hin <-].
      apply list_elem_of_fmap. eauto. }
    apply NoDup_submseteq in Hsub; [|done].
    apply submseteq_length in Hsub.
    rewrite !length_fmap, length_seq in Hsub. lia.
Qed.

Lemma uniqueSlug_loop_reaches rows (base : string) k :
  ∀ c current fuel,
    Organization.findOneBySlug rows (base ++ "-" ++ Organization.decimal (c + k)) = None →
    k < fuel →
    ∃ s, Organization.uniqueSlug_loop fuel rows base current c = Some s
         ∧ Organization.findOneBySlug rows s = None
         ∧ (s = current ∨ ∃ j, c ≤ j ∧ s = (base ++ "-" ++ Organization.decimal j)%string).
Proof.
  induction k as [|k IH]; intros c current fuel Hfree Hfuel.
  - destruct fuel as [|fuel]; [lia|]. simpl.
    destruct (Organization.findOneBySlug rows current) eqn:E; [|by eauto].
    rewrite Nat.add_0_r in Hfree.
    exists (base ++ "-" ++ Organization.decimal c)%string.
    split; [|split; [done|right; eauto]].
    destruct fuel; simpl; by rewrite Hfree.
  - destruct fuel as [|fuel]; [lia|]. simpl.
    destruct (Organization.findOneBySlug rows current) eqn:E; [|by eauto].
    destruct (IH (S c) (base ++ "-" ++ Organization.decimal c)%string fuel)
      as (s & Hs & Hnone & Hform); [by rewrite Nat.add_succ_comm|lia|].
    exists s. split; [done|]. split; [done|]. right.
    destruct Hform as [->|(j & Hj & ->)]; [exists c|exists j]; split; try done; lia.
Qed.

(** X13: the loop of [beforeCreate] that makes the slug unique ends after
    at most one round per stored row and one more, although it has no bound
    of its own.  The slug it settles on is not taken by a live row; it is
    the slug asked for when that one is free, and otherwise that slug
    followed by a hyphen and a counter of at least 1. *)
Theorem beforeCreate_unique_slug rows (organization : Organization.t) fuel :
  length rows < fuel →
  ∃ s,
    Organization.beforeCreate fuel rows organization
    = Some (Organization.set_slug organization s)
    ∧ Organization.findOneBySlug rows s = None
    ∧ (Organization.findOneBySlug rows organization.(Organization.slug) = None →
       s = organization.(Organization.slug))
    ∧ (s = organization.(Organization.slug)
       ∨ ∃ j, 1 ≤ j
              ∧ s = (organization.(Organization.slug) ++ "-" ++ Organization.decimal j)%string).
Proof.
  intros Hfuel. unfold Organization.beforeCreate.
  destruct (free_candidate rows (Organization.slug organization) 1) as (k & Hk & Hfree).
  destruct (uniqueSlug_loop_reaches rows (Organization.slug organization) k 1
              (Organization.slug organization) fuel Hfree) as (s & Hs & Hnone & Hform);
    [lia|].
  exists s. rewrite Hs. split; [done|]. split; [done|]. split; [|done].
  intros Hbase. destruct fuel as [|fuel]; [lia|].
  simpl in Hs. rewrite Hbase in Hs. by injection Hs as <-.
Qed.

Lemma beforeCreate_unique_slug_witness :
  ∃ s, Organization.beforeCreate 3 tree_rows tree_root
       = Some (Organization.set_slug tree_root s)
       ∧ Organization.findOneBySlug tree_rows s = None.
Proof.
  destruct (beforeCreate_unique_slug tree_rows tree_root 3) as (s & H1 & H2 & _).
  - simpl. lia.
  - by exists s.
Defined.

(** ** The subdomain *)

Lemma split_no_sep sep s : occurs sep s = false → Tenant.split sep s = [s].
Proof.
  induction s as [|c s IH]; simpl; [done|].
  rewrite Ascii.eqb_sym. destruct (Ascii.eqb sep c) eqn:E; simpl; [done|].
  intros H. by rewrite IH.
Qed.

Lemma split_at_sep sep p rest :
  occurs sep p = false →
  Tenant.split sep (p ++ String sep rest) = p :: Tenant.split sep rest.
Proof.
  induction p as [|c p IH]; simpl.
  - intros _. by rewrite Ascii.eqb_refl.
  - rewrite Ascii.eqb_sym. destruct (Ascii.eqb sep c) eqn:E; simpl; [done|].
    intros H. by rewrite IH.
Qed.

(** Every string is free of the separator or breaks at its first one. *)
Lemma first_sep sep s :
  occurs sep s = false
  ∨ ∃ p rest, s = (p ++ String sep rest)%string ∧ occurs sep p = false.
Proof.
  induction s as [|c s IH]; simpl; [by left|].
  destruct (Ascii.eqb c sep) eqn:E; simpl.
  - right. apply Ascii.eqb_eq in E as ->. by exists EmptyString, s.
  - destruct IH as [H|(p & rest & -> & Hp)]; [by left|right].
    exists (String c p), rest. split; [done|]. simpl. by rewrite E.
Qed.

Lemma split_length_two sep s :
  2 ≤ length (Tenant.split sep s) ↔ occurs sep s = true.
Proof.
  destruct (first_sep sep s) as [H|(p & rest & -> & Hp)].
  - rewrite split_no_sep, H by done. simpl. split; [lia|done].
  - rewrite split_at_sep by done. simpl.
    assert (occurs sep (p ++ String sep rest) = true) as ->.
    { clear Hp. induction p as [|c p IH]; simpl.
      - by rewrite Ascii.eqb_refl.
      - rewrite IH. apply orb_true_r. }
    pose proof (split_nonempty sep rest).
    destruct (Tenant.split sep rest); [done|]. simpl. split; [done|lia].
Qed.

Lemma extractSubdomain_spec (host label : string) :
  Tenant.extractSubdomain host = Some label ↔
  occurs "." label = false
  ∧ ∃ rest, host = (label ++ "." ++ rest)%string ∧ occurs "." rest = true.
Proof.
  unfold Tenant.extractSubdomain. split.
  - case_bool_decide as Hlen; [|done]. intros Hhead.
    destruct (first_sep "." host) as [H|(p & rest & -> & Hp)].
    { rewrite split_no_sep in Hlen by done. simpl in Hlen. lia. }
    rewrite split_at_sep in Hlen, Hhead by done. simpl in Hlen, Hhead.
    injection Hhead as <-. split; [done|]. exists rest. split; [done|].
    apply split_length_two. lia.
  - intros (Hl & rest & -> & Hrest).
    change ("." +:+ rest) with (String "." rest).
    rewrite split_at_sep by done. apply split_length_two in Hrest. simpl.
    rewrite bool_decide_eq_true_2; [done|lia].
Qed.

(** X14: [extractSubdomain] returns a label exactly when the host is that
    label, a dot, and a remainder that holds a further dot, the label itself
    being free of dots; a host with fewer than two dots has no subdomain. *)
Theorem extractSubdomain_first_label (host label : string) :
  Tenant.extractSubdomain host = Some label ↔
  occurs "." label = false
  ∧ ∃ rest, host = (label ++ "." ++ rest)%string ∧ occurs "." rest = true.
Proof. apply extractSubdomain_spec. Qed.

(** X15: the tenant identifier is never the empty string; and when it
    comes from the host, because neither a path parameter nor a header is
    present, it is neither [www] nor [api] and holds no dot. *)
Theorem extractTenantIdentifier_nonempty (req : Tenant.request) (s : string) :
  Tenant.extractTenantIdentifier req = Some s →
  s ≠ ""
  ∧ (truthy (path_parameter req) = false →
     truthy (designated_header req) = false →
     s ≠ "www" ∧ s ≠ "api" ∧ occurs "." s = false).
Proof.
  intros H.
  assert (∀ o : option string, truthy o = true → o = Some s → s ≠ "") as Hne.
  { intros o Ht ->. apply truthy_Some_str in Ht as (x & [= <-] & ?). done. }
  destruct (truthy (path_parameter req)) eqn:Hp.
  { rewrite extractTenantIdentifier_path in H by done. split; [by eapply Hne|done]. }
  revert H. unfold Tenant.extractTenantIdentifier.
  unfold path_parameter, Tenant.or_else in Hp.
  destruct (truthy (Tenant.params req !! "tenantSlug")) eqn:Hp1; [congruence|].
  rewrite Hp. fold (designated_header req).
  destruct (truthy (designated_header req)) eqn:Hh.
  { intros H. split; [by eapply Hne|done]. }
  destruct (Tenant.headers req !! "host") as [host|]; [|done].
  destruct (truthy_str host); [|done].
  destruct (truthy (Tenant.extractSubdomain host)) eqn:Ht; [|done]. simpl.
  repeat case_bool_decide; simpl; try done.
  intros Hs. split; [by eapply Hne|]. intros _ _.
  rewrite Hs in *. split; [congruence|]. split; [congruence|].
  by apply extractSubdomain_spec in Hs as [? _].
Qed.

Lemma extractTenantIdentifier_nonempty_witness :
  let req := Tenant.mkRequest ∅ {[ "host" := "acme.example.com" ]}
               None None None None None None None in
  Tenant.extractTenantIdentifier req = Some "acme" ∧ "acme" ≠ "".
Proof.
  intros req. split; [reflexivity|].
  apply (extractTenantIdentifier_nonempty req "acme"). reflexivity.
Defined.

(** ** The tenant context *)

Lemma findActiveBySlug_Some orgs s o :
  Organization.findActiveBySlug orgs s = Some o →
  o ∈ orgs ∧ o.(Organization.slug) = s ∧ o.(Organization.isActive) = true
  ∧ o.(Organization.deletedAt) = None.
Proof.
  unfold Organization.findActiveBySlug. intros H. apply find_some in H as [Hin Hb].
  apply andb_true_iff in Hb as [[H1 H2]%andb_true_iff H3].
  apply bool_decide_eq_true in H1, H3. by rewrite list_elem_of_In.
Qed.

Lemma findMembership_Some members uid oid m :
  Tenant.findMembership members uid oid = Some m →
  m ∈ members ∧ m.(OrganizationUser.userId) = uid
  ∧ m.(OrganizationUser.organizationId) = oid
  ∧ m.(OrganizationUser.isActive) = true ∧ m.(OrganizationUser.deletedAt) = None.
Proof.
  unfold Tenant.findMembership. intros H. apply find_some in H as [Hin Hb].
  apply andb_true_iff in Hb as [[[H1 H2]%andb_true_iff H3]%andb_true_iff H4].
  apply bool_decide_eq_true in H1, H2, H4. by rewrite list_elem_of_In.
Qed.

Lemma findMembership_None members uid oid :
  Tenant.findMembership members uid oid = None ↔
  ∀ m, m ∈ members →
       m.(OrganizationUser.userId) = uid →
       m.(OrganizationUser.organizationId) = oid →
       m.(OrganizationUser.isActive) = false ∨ m.(OrganizationUser.deletedAt) ≠ None.
Proof.
  unfold Tenant.findMembership. split.
  - intros H m Hin Hu Ho. apply list_elem_of_In in Hin.
    pose proof (find_none _ _ H m Hin) as Hb. simpl in Hb.
    rewrite !bool_decide_eq_true_2 in Hb by done. simpl in Hb.
    destruct (OrganizationUser.isActive m); [right|by left].
    simpl in Hb. by apply bool_decide_eq_false in Hb.
  - intros H. destruct (find _ members) as [m|] eqn:E; [|done].
    apply find_some in E as [Hin Hb].
    apply andb_true_iff in Hb as [[[H1 H2]%andb_true_iff H3]%andb_true_iff H4].
    apply bool_decide_eq_true in H1, H2, H4. apply list_elem_of_In in Hin.
    destruct (H m Hin H1 H2); congruence.
Qed.

Lemma tenantMiddleware_Next orgs members req ctx :
  Tenant.tenantMiddleware orgs members req = Tenant.Next ctx →
  ∃ u org,
    req.(Tenant.user) = Some u
    ∧ Tenant.extractTenantIdentifier req = Some org.(Organization.slug)
    ∧ Organization.findActiveBySlug orgs org.(Organization.slug) = Some org
    ∧ Tenant.checkUserAccess members u org.(Organization.id) = true
    ∧ ctx = Tenant.mkRequest req.(Tenant.params) req.(Tenant.headers) (Some u)
              (Some org) (Some org.(Organization.id)) (Some org.(Organization.slug))
              (Tenant.findMembership members u.(User.id) org.(Organization.id))
              (OrganizationUser.role
                 <$> Tenant.findMembership members u.(User.id) org.(Organization.id))
              (match Tenant.findMembership members u.(User.id) org.(Organization.id) with
               | Some m => m.(OrganizationUser.permissions)
               | None => Some (VObj ∅)
               end).
Proof.
  unfold Tenant.tenantMiddleware.
  destruct (Tenant.user req) as [u|] eqn:Hu; [|done].
  destruct (Tenant.extractTenantIdentifier req) as [slug|] eqn:Hs; [|done].
  destruct (Organization.findActiveBySlug orgs slug) as [org|] eqn:Ho; [|done].
  destruct (Tenant.checkUserAccess members u (Organization.id org)) eqn:Ha; [|done].
  intros [= <-]. exists u, org.
  apply findActiveBySlug_Some in Ho as Hslug. destruct Hslug as (_ & <- & _).
  done.
Qed.

(** X16: what a context built by [tenantMiddleware] holds.  The tenant is
    a live, active organization whose slug is the identifier resolved from
    the request; the membership, when there is one, is a live, active
    membership of the caller in that organization, and the role and the
    permission map of the context are its own; a caller who is not a super
    admin always has one.  The parameters, headers and user of the request
    are passed on. *)
Theorem tenantMiddleware_context orgs members (req ctx : Tenant.request) :
  Tenant.tenantMiddleware orgs members req = Tenant.Next ctx →
  ∃ u org,
    req.(Tenant.user) = Some u ∧ ctx.(Tenant.user) = Some u
    ∧ ctx.(Tenant.params) = req.(Tenant.params)
    ∧ ctx.(Tenant.headers) = req.(Tenant.headers)
    ∧ ctx.(Tenant.tenant) = Some org
    ∧ ctx.(Tenant.tenantId) = Some org.(Organization.id)
    ∧ org ∈ orgs
    ∧ Tenant.extractTenantIdentifier req = Some org.(Organization.slug)
    ∧ org.(Organization.isActive) = true
    ∧ org.(Organization.deletedAt) = None
    ∧ (User.isSuperAdmin u = false → is_Some ctx.(Tenant.orgMembership))
    ∧ ∀ m, ctx.(Tenant.orgMembership) = Some m →
        m ∈ members
        ∧ m.(OrganizationUser.userId) = u.(User.id)
        ∧ m.(OrganizationUser.organizationId) = org.(Organization.id)
        ∧ m.(OrganizationUser.isActive) = true
        ∧ m.(OrganizationUser.deletedAt) = None
        ∧ ctx.(Tenant.orgRole) = Some m.(OrganizationUser.role)
        ∧ ctx.(Tenant.orgPermissions) = m.(OrganizationUser.permissions).
Proof.
  intros (u & org & Hu & Hs & Ho & Ha & ->)%tenantMiddleware_Next.
  exists u, org. simpl.
  apply findActiveBySlug_Some in Ho as (Hin & _ & Hact & Hlive).
  repeat (split; [done|]). split.
  - intros Hsa. unfold Tenant.checkUserAccess in Ha. rewrite Hsa in Ha.
    by apply bool_decide_eq_true in Ha.
  - intros m Hm. rewrite Hm. simpl.
    apply findMembership_Some in Hm as (? & ? & ? & ? & ?). done.
Qed.

Lemma tenantMiddleware_context_witness :
  let acme := Organization.mk "o-1" "Acme" "acme" None true None in
  let ann := User.mk "u-1" "fb-1" "user" in
  let row := OrganizationUser.mk "m-1" "u-1" "o-1" "viewer" None true None in
  let req := Tenant.mkRequest {[ "tenantSlug" := "acme" ]} ∅ (Some ann)
               None None None None None None in
  ∃ ctx u org,
    Tenant.tenantMiddleware [acme] [row] req = Tenant.Next ctx
    ∧ ctx.(Tenant.user) = Some u ∧ ctx.(Tenant.tenant) = Some org.
Proof.
  intros acme ann row req.
  destruct (Tenant.tenantMiddleware [acme] [row] req) as [ctx| |] eqn:E;
    [|vm_compute in E; discriminate..].
  destruct (tenantMiddleware_context [acme] [row] req ctx E)
    as (u & org & _ & Hu & _ & _ & Ht & _).
  by exists ctx, u, org.
Defined.

(** X17: a caller who is not a super admin and whose memberships in the
    resolved organization are all inactive or deleted is refused with 403
    [ORGANIZATION_ACCESS_DENIED], the same answer as with no membership at
    all. *)
Theorem tenantMiddleware_inactive_member orgs members (req : Tenant.request) u org :
  req.(Tenant.user) = Some u →
  User.isSuperAdmin u = false →
  Tenant.extractTenantIdentifier req = Some org.(Organization.slug) →
  Organization.findActiveBySlug orgs org.(Organization.slug) = Some org →
  (∀ m, m ∈ members →
        m.(OrganizationUser.userId) = u.(User.id) →
        m.(OrganizationUser.organizationId) = org.(Organization.id) →
        m.(OrganizationUser.isActive) = false ∨ m.(OrganizationUser.deletedAt) ≠ None) →
  Tenant.tenantMiddleware orgs members req
  = Tenant.ResError "Access denied to this organization" 403 "ORGANIZATION_ACCESS_DENIED"
  ∧ Tenant.tenantMiddleware orgs [] req = Tenant.tenantMiddleware orgs members req.
Proof.
  intros Hu Hsa Hs Ho Hm. apply findMembership_None in Hm.
  unfold Tenant.tenantMiddleware, Tenant.checkUserAccess.
  rewrite Hu, Hs, Ho, Hsa, Hm. simpl. done.
Qed.

Lemma tenantMiddleware_inactive_member_witness :
  let acme := Organization.mk "o-1" "Acme" "acme" None true None in
  let ann := User.mk "u-1" "fb-1" "user" in
  let row := OrganizationUser.mk "m-1" "u-1" "o-1" "owner" None false None in
  let req := Tenant.mkRequest {[ "tenantSlug" := "acme" ]} ∅ (Some ann)
               None None None None None None in
  Tenant.tenantMiddleware [acme] [row] req
  = Tenant.ResError "Access denied to this organization" 403 "ORGANIZATION_ACCESS_DENIED".
Proof.
  intros acme ann row req.
  apply (tenantMiddleware_inactive_member [acme] [row] req ann acme); try reflexivity.
  intros m ->%list_elem_of_singleton _ _. by left.
Defined.

(** X18: [optionalTenantMiddleware] never refuses a request: where
    [tenantMiddleware] builds a context it builds the same one, and in every
    other case it passes the request on as it came. *)
Theorem optionalTenantMiddleware_degrades orgs members (req : Tenant.request) :
  Tenant.optionalTenantMiddleware orgs members req
  = match Tenant.tenantMiddleware orgs members req with
    | Tenant.Next ctx => Tenant.Next ctx
    | _ => Tenant.Next req
    end.
Proof.
  unfold Tenant.optionalTenantMiddleware, Tenant.tenantMiddleware.
  destruct (Tenant.user req) as [u|]; [|done].
  destruct (Tenant.extractTenantIdentifier req) as [slug|]; [|done].
  destruct (Organization.findActiveBySlug orgs slug) as [org|]; [|done].
  by destruct (Tenant.checkUserAccess members u (Organization.id org)).
Qed.


